(** * The discriminative RNNG parser of [rnng/models.py]

    A shallow embedding of the parser state machine of [DiscRNNG] and of its
    undoable sequence encoder [StackLSTM], followed by the properties of the
    transition system.

    Conventions of the embedding.

    - A Python list is a Rocq list in the same order: [l.append(x)] is
      [l ++ [x]], [l[-1]] is [last l] and [l.pop()] is [py_pop l].
    - A Python [dict] is a [gmap]; ids and counters are [Z].
    - A method is a computation in the monad [M S]: it takes the object,
      and returns the object as the method left it together with either a
      value or the exception that was raised.  An exception does not roll
      anything back: the object returned next to [Raise e] carries every
      assignment made before the [raise].
    - Tensors are opaque.  [Vec] is the type of the vectors fed to the
      encoders, [LState] the [(h, c)] pair of an LSTM, [Tensor] a vector of
      per-action scores and [Scalar] one score.  The learned transformations
      are parameters of the development, and calls into torch are total:
      shape and index errors raised inside torch are not represented. *)

From Stdlib Require Import Ascii ZArith Lia.
From stdpp Require Import base option list strings gmap.

Set Default Proof Using "Type".
#[local] Set Warnings "-clear-no-such-hyp".

(** ** Exceptions and the state-and-exception monad *)

Inductive exn : Type :=
  | ValueError
  | KeyError
  | IndexError
  | AssertionError
  | RuntimeError
  | EmptyStackError
  | IllegalActionError.

#[global] Instance exn_eq_dec : EqDecision exn.
Proof. solve_decision. Defined.

Inductive result (A : Type) : Type :=
  | Ok (a : A)
  | Raise (e : exn).
Arguments Ok {A} a.
Arguments Raise {A} e.

Definition M (S A : Type) : Type := S -> result A * S.

Definition ret {S A : Type} (a : A) : M S A := fun s => (Ok a, s).

Definition raise {S A : Type} (e : exn) : M S A := fun s => (Raise e, s).

Definition bind {S A B : Type} (m : M S A) (k : A -> M S B) : M S B :=
  fun s =>
    match m s with
    | (Ok a, s') => k a s'
    | (Raise e, s') => (Raise e, s')
    end.

Definition gets {S A : Type} (f : S -> A) : M S A := fun s => (Ok (f s), s).

Definition modify {S : Type} (f : S -> S) : M S unit := fun s => (Ok tt, f s).

(** [assert c]: raises [AssertionError] when [c] is false. *)
Definition assert {S : Type} (c : bool) : M S unit :=
  if c then ret tt else raise AssertionError.

(** [if c: raise e]. *)
Definition raise_if {S : Type} (c : bool) (e : exn) : M S unit :=
  if c then raise e else ret tt.

(** [d[k]] on a dictionary: [KeyError] when the key is absent. *)
Definition dict_get {S : Type} `{Countable K} {V : Type}
    (d : gmap K V) (k : K) : M S V :=
  match d !! k with
  | Some v => ret v
  | None => raise KeyError
  end.

(** Runs a computation of a component inside the object that owns it. *)
Definition zoom {S T A : Type} (proj : S -> T) (upd : T -> S -> S)
    (m : M T A) : M S A :=
  fun s => let '(r, t) := m (proj s) in (r, upd t s).

Declare Scope monad_scope.
Delimit Scope monad_scope with monad.
Notation "x <- c1 ;; c2" := (bind c1 (fun x => c2))
  (at level 20, c1 at level 99, c2 at level 200, only parsing) : monad_scope.
Notation "c1 ;; c2" := (bind c1 (fun _ => c2))
  (at level 100, c2 at level 200, only parsing, right associativity)
  : monad_scope.
Open Scope monad_scope.

(** ** Python lists *)

(** [l.pop()]: the last element and the list without it; [None] stands for
    the [IndexError] of an empty list. *)
Definition py_pop {A : Type} (l : list A) : option (A * list A) :=
  match last l with
  | Some x => Some (x, removelast l)
  | None => None
  end.

(** ** StackLSTM: the undoable sequence encoder *)

Section Encoder.
Context {Vec LState : Type}.

(** The attributes of a [StackLSTM] that its methods read or write:
    [lstm] is the recurrent cell (input and previous states to output and
    next states), [_states_hist] starts with the initial states
    [(h0, c0)], [_outputs_hist] holds one output per pushed element. *)
Record StackLSTM : Type := mkStackLSTM {
  lstm : Vec -> LState -> Vec * LState;
  _states_hist : list LState;
  _outputs_hist : list Vec;
}.

(** [__init__], lines 49-53. *)
Definition StackLSTM_init (cell : Vec -> LState -> Vec * LState)
    (init_states : LState) : StackLSTM :=
  {| lstm := cell; _states_hist := [init_states]; _outputs_hist := [] |}.

(** [forward], reached through [push]. *)
Definition forward_enc (inputs : Vec) : M StackLSTM LState :=
  fun self =>
    match last (_states_hist self) with
    | None => (Raise AssertionError, self)
    | Some prev =>
        let '(next_outputs, next_states) := lstm self inputs prev in
        (Ok next_states,
         {| lstm := lstm self;
            _states_hist := _states_hist self ++ [next_states];
            _outputs_hist := _outputs_hist self ++ [next_outputs] |})
    end.

Definition push (inputs : Vec) : M StackLSTM LState := forward_enc inputs.

Definition pop : M StackLSTM LState :=
  fun self =>
    if (1 <? length (_states_hist self))%nat then
      match py_pop (_outputs_hist self) with
      | None => (Raise IndexError, self)
      | Some (_, outs) =>
          let self1 := {| lstm := lstm self;
                          _states_hist := _states_hist self;
                          _outputs_hist := outs |} in
          match py_pop (_states_hist self1) with
          | None => (Raise IndexError, self1)
          | Some (st, sts) =>
              (Ok st, {| lstm := lstm self1;
                         _states_hist := sts;
                         _outputs_hist := _outputs_hist self1 |})
          end
      end
    else (Raise EmptyStackError, self).

(** The [top] property: [None] when nothing has been pushed. *)
Definition top (self : StackLSTM) : option Vec := last (_outputs_hist self).

(** [__len__]. *)
Definition len (self : StackLSTM) : nat := length (_outputs_hist self).

(** [while len(encoder) > 0: encoder.pop()], as [start] runs it.  Every
    round that does not raise shortens [_outputs_hist] by one, so
    [len self] rounds are enough to reach the exit test
    (see [pop_all_exit]). *)
Fixpoint pop_all (fuel : nat) : M StackLSTM unit :=
  fun self =>
    match fuel with
    | O => (Ok tt, self)
    | S fuel' =>
        if (0 <? len self)%nat then (pop ;; pop_all fuel') self
        else (Ok tt, self)
    end.

Definition clear : M StackLSTM unit := fun self => pop_all (len self) self.

(** The instances a program can hold: built by [__init__], then changed
    by [push] and [pop] only. *)
Inductive enc_reachable : StackLSTM -> Prop :=
  | enc_init cell init_states :
      enc_reachable (StackLSTM_init cell init_states)
  | enc_push e v r e' :
      enc_reachable e -> push v e = (r, e') -> enc_reachable e'
  | enc_pop e r e' :
      enc_reachable e -> pop e = (r, e') -> enc_reachable e'.

(** One entry of [_states_hist] per output, plus the initial states. *)
Definition enc_wf (e : StackLSTM) : Prop :=
  length (_states_hist e) = S (length (_outputs_hist e)).

End Encoder.

Arguments StackLSTM : clear implicits.

(** ** Symbols, trees and actions *)

(** [rnng.typing]: words, POS tags and nonterminal labels are strings,
    their ids and the action ids are integers. *)
Abbreviation Word := string (only parsing).
Abbreviation POSTag := string (only parsing).
Abbreviation NTLabel := string (only parsing).
Abbreviation WordId := Z (only parsing).
Abbreviation POSId := Z (only parsing).
Abbreviation NTId := Z (only parsing).
Abbreviation ActionId := Z (only parsing).

(** What sits in a stack element: a word, or an [nltk] tree with a label
    and its children in order. *)
#[warnings="-register-all"]
Inductive Subtree : Type :=
  | SWord (w : Word)
  | STree (label : NTLabel) (children : list Subtree).

Definition is_Tree (t : Subtree) : bool :=
  match t with
  | STree _ _ => true
  | SWord _ => false
  end.

(** Modelled from the spec: the action classes of [rnng.actions], which
    [models.py] imports.  The spec (sections 3 and 4.2) gives a closed set
    of three actions, their canonical strings ["SHIFT"], ["REDUCE"] and
    ["NT(label)"], and their dispatch to the parser's [verify_*] and
    action methods. *)
Inductive Action : Type :=
  | ShiftAction
  | ReduceAction
  | NTAction (label : NTLabel).

#[global] Instance Action_eq_dec : EqDecision Action.
Proof. solve_decision. Defined.

(** [isinstance(a, NTAction)]. *)
Definition is_NTAction (a : Action) : bool :=
  match a with
  | NTAction _ => true
  | _ => false
  end.

(** Modelled from the spec: [str(action)], the canonical string form. *)
Definition action_str (a : Action) : string :=
  match a with
  | ShiftAction => "SHIFT"
  | ReduceAction => "REDUCE"
  | NTAction label => "NT(" +:+ label +:+ ")"
  end.

(** The text before a final closing parenthesis. *)
Fixpoint strip_close (s : string) : option string :=
  match s with
  | EmptyString => None
  | String c rest =>
      match rest with
      | EmptyString => if decide (c = ")"%char) then Some EmptyString else None
      | String _ _ => String c <$> strip_close rest
      end
  end.

(** Modelled from the spec: [Action.from_string], the inverse of the
    canonical string form; [None] on any other string. *)
Definition from_string (s : string) : option Action :=
  if decide (s = "SHIFT") then Some ShiftAction
  else if decide (s = "REDUCE") then Some ReduceAction
  else
    match s with
    | String "N" (String "T" (String "(" rest)) => NTAction <$> strip_close rest
    | _ => None
    end.

(** ** The torch interface *)

(** The tensor types and the torch functions the parser calls.
    [log_softmax] is the masked [log_softmax] of lines 105-115, whose second
    argument lists the action ids forced to minus infinity; [tensor_item] is
    [t[i]], [tensor_argmax] is [torch.max(t, dim=0)[1].data[0]]; the scalar
    operations are those of [llh = 0.], [llh += x] and [-llh]. *)
Class Torch : Type := {
  Vec : Type;
  LState : Type;
  Tensor : Type;
  Scalar : Type;
  log_softmax : Tensor -> option (list ActionId) -> Tensor;
  tensor_item : Tensor -> ActionId -> Scalar;
  tensor_argmax : Tensor -> ActionId;
  scalar_zero : Scalar;
  scalar_add : Scalar -> Scalar -> Scalar;
  scalar_neg : Scalar -> Scalar;
}.

(** ** The parser object *)

Section Parser.
Context `{Torch}.

Record StackElement : Type := mkStackElement {
  subtree : Subtree;
  emb : Vec;
  is_open_nt : bool;
}.

(** The learned modules of [DiscRNNG.__init__], each as the function it
    computes.  [word2encoder wid pid] is [word2encoder] applied to the rows
    of [word_embedding] and [pos_embedding] for a word id and a POS id;
    [nt2encoder] and [action2encoder] likewise include their embedding
    table.  [fwd_composer] and [bwd_composer] give the last output (after
    dropout) of one pass over a sequence. *)
Record Layers : Type := mkLayers {
  word2encoder : WordId -> POSId -> Vec;
  nt2encoder : NTId -> Vec;
  action2encoder : ActionId -> Vec;
  stack_guard : Vec;
  buffer_guard : Vec;
  history_guard : Vec;
  fwd_composer : list Vec -> Vec;
  bwd_composer : list Vec -> Vec;
  fwdbwd2composed : Vec -> Vec -> Vec;
  encoders2summary : Vec -> Vec -> Vec -> Vec;
  summary2actionlogprobs : Vec -> Tensor;
}.

(** The attributes of a [DiscRNNG]: the four id mappings, the learned
    modules, the parser states, the three encoders and the final
    embeddings computed by [_prepare_embeddings]. *)
Record DiscRNNG : Type := mkDiscRNNG {
  word2id : gmap string WordId;
  pos2id : gmap string POSId;
  nt2id : gmap string NTId;
  actionstr2id : gmap string ActionId;
  layers : Layers;
  _stack : list StackElement;
  _buffer : list Word;
  _history : list Action;
  _num_open_nt : Z;
  _started : bool;
  stack_encoder : StackLSTM Vec LState;
  buffer_encoder : StackLSTM Vec LState;
  history_encoder : StackLSTM Vec LState;
  _word_emb : gmap WordId Vec;
  _nt_emb : option (NTId -> Vec);
  _action_emb : option (ActionId -> Vec);
}.

Definition MAX_OPEN_NT : Z := 100.

(** Assignments to the attributes that the methods write. *)
Definition set_stack (v : list StackElement) (self : DiscRNNG) : DiscRNNG :=
  {| word2id := word2id self; pos2id := pos2id self; nt2id := nt2id self;
     actionstr2id := actionstr2id self; layers := layers self; _stack := v;
     _buffer := _buffer self; _history := _history self;
     _num_open_nt := _num_open_nt self; _started := _started self;
     stack_encoder := stack_encoder self;
     buffer_encoder := buffer_encoder self;
     history_encoder := history_encoder self; _word_emb := _word_emb self;
     _nt_emb := _nt_emb self; _action_emb := _action_emb self |}.

Definition set_buffer (v : list string) (self : DiscRNNG) : DiscRNNG :=
  {| word2id := word2id self; pos2id := pos2id self; nt2id := nt2id self;
     actionstr2id := actionstr2id self; layers := layers self;
     _stack := _stack self; _buffer := v; _history := _history self;
     _num_open_nt := _num_open_nt self; _started := _started self;
     stack_encoder := stack_encoder self;
     buffer_encoder := buffer_encoder self;
     history_encoder := history_encoder self; _word_emb := _word_emb self;
     _nt_emb := _nt_emb self; _action_emb := _action_emb self |}.

Definition set_history (v : list Action) (self : DiscRNNG) : DiscRNNG :=
  {| word2id := word2id self; pos2id := pos2id self; nt2id := nt2id self;
     actionstr2id := actionstr2id self; layers := layers self;
     _stack := _stack self; _buffer := _buffer self; _history := v;
     _num_open_nt := _num_open_nt self; _started := _started self;
     stack_encoder := stack_encoder self;
     buffer_encoder := buffer_encoder self;
     history_encoder := history_encoder self; _word_emb := _word_emb self;
     _nt_emb := _nt_emb self; _action_emb := _action_emb self |}.

Definition set_num_open_nt (v : Z) (self : DiscRNNG) : DiscRNNG :=
  {| word2id := word2id self; pos2id := pos2id self; nt2id := nt2id self;
     actionstr2id := actionstr2id self; layers := layers self;
     _stack := _stack self; _buffer := _buffer self;
     _history := _history self; _num_open_nt := v; _started := _started self;
     stack_encoder := stack_encoder self;
     buffer_encoder := buffer_encoder self;
     history_encoder := history_encoder self; _word_emb := _word_emb self;
     _nt_emb := _nt_emb self; _action_emb := _action_emb self |}.

Definition set_started (v : bool) (self : DiscRNNG) : DiscRNNG :=
  {| word2id := word2id self; pos2id := pos2id self; nt2id := nt2id self;
     actionstr2id := actionstr2id self; layers := layers self;
     _stack := _stack self; _buffer := _buffer self;
     _history := _history self; _num_open_nt := _num_open_nt self;
     _started := v; stack_encoder := stack_encoder self;
     buffer_encoder := buffer_encoder self;
     history_encoder := history_encoder self; _word_emb := _word_emb self;
     _nt_emb := _nt_emb self; _action_emb := _action_emb self |}.

Definition set_stack_encoder (v : StackLSTM Vec LState) (self : DiscRNNG) : DiscRNNG :=
  {| word2id := word2id self; pos2id := pos2id self; nt2id := nt2id self;
     actionstr2id := actionstr2id self; layers := layers self;
     _stack := _stack self; _buffer := _buffer self;
     _history := _history self; _num_open_nt := _num_open_nt self;
     _started := _started self; stack_encoder := v;
     buffer_encoder := buffer_encoder self;
     history_encoder := history_encoder self; _word_emb := _word_emb self;
     _nt_emb := _nt_emb self; _action_emb := _action_emb self |}.

Definition set_buffer_encoder (v : StackLSTM Vec LState) (self : DiscRNNG) : DiscRNNG :=
  {| word2id := word2id self; pos2id := pos2id self; nt2id := nt2id self;
     actionstr2id := actionstr2id self; layers := layers self;
     _stack := _stack self; _buffer := _buffer self;
     _history := _history self; _num_open_nt := _num_open_nt self;
     _started := _started self; stack_encoder := stack_encoder self;
     buffer_encoder := v; history_encoder := history_encoder self;
     _word_emb := _word_emb self; _nt_emb := _nt_emb self;
     _action_emb := _action_emb self |}.

Definition set_history_encoder (v : StackLSTM Vec LState) (self : DiscRNNG) : DiscRNNG :=
  {| word2id := word2id self; pos2id := pos2id self; nt2id := nt2id self;
     actionstr2id := actionstr2id self; layers := layers self;
     _stack := _stack self; _buffer := _buffer self;
     _history := _history self; _num_open_nt := _num_open_nt self;
     _started := _started self; stack_encoder := stack_encoder self;
     buffer_encoder := buffer_encoder self; history_encoder := v;
     _word_emb := _word_emb self; _nt_emb := _nt_emb self;
     _action_emb := _action_emb self |}.

Definition set_word_emb (v : gmap Z Vec) (self : DiscRNNG) : DiscRNNG :=
  {| word2id := word2id self; pos2id := pos2id self; nt2id := nt2id self;
     actionstr2id := actionstr2id self; layers := layers self;
     _stack := _stack self; _buffer := _buffer self;
     _history := _history self; _num_open_nt := _num_open_nt self;
     _started := _started self; stack_encoder := stack_encoder self;
     buffer_encoder := buffer_encoder self;
     history_encoder := history_encoder self; _word_emb := v;
     _nt_emb := _nt_emb self; _action_emb := _action_emb self |}.

Definition set_nt_emb (v : option (Z -> Vec)) (self : DiscRNNG) : DiscRNNG :=
  {| word2id := word2id self; pos2id := pos2id self; nt2id := nt2id self;
     actionstr2id := actionstr2id self; layers := layers self;
     _stack := _stack self; _buffer := _buffer self;
     _history := _history self; _num_open_nt := _num_open_nt self;
     _started := _started self; stack_encoder := stack_encoder self;
     buffer_encoder := buffer_encoder self;
     history_encoder := history_encoder self; _word_emb := _word_emb self;
     _nt_emb := v; _action_emb := _action_emb self |}.

Definition set_action_emb (v : option (Z -> Vec)) (self : DiscRNNG) : DiscRNNG :=
  {| word2id := word2id self; pos2id := pos2id self; nt2id := nt2id self;
     actionstr2id := actionstr2id self; layers := layers self;
     _stack := _stack self; _buffer := _buffer self;
     _history := _history self; _num_open_nt := _num_open_nt self;
     _started := _started self; stack_encoder := stack_encoder self;
     buffer_encoder := buffer_encoder self;
     history_encoder := history_encoder self; _word_emb := _word_emb self;
     _nt_emb := _nt_emb self; _action_emb := v |}.

(** [l.append(x)] and [l.pop()] on the three symbolic structures, and the
    encoder methods run on the encoder a given attribute holds. *)
Definition stack_append (x : StackElement) : M DiscRNNG unit :=
  modify (fun self => set_stack (_stack self ++ [x]) self).

Definition stack_pop : M DiscRNNG StackElement :=
  fun self =>
    match py_pop (_stack self) with
    | Some (x, rest) => (Ok x, set_stack rest self)
    | None => (Raise IndexError, self)
    end.

Definition buffer_pop : M DiscRNNG Word :=
  fun self =>
    match py_pop (_buffer self) with
    | Some (x, rest) => (Ok x, set_buffer rest self)
    | None => (Raise IndexError, self)
    end.

Definition on_stack_encoder {A : Type} (m : M (StackLSTM Vec LState) A)
  : M DiscRNNG A := zoom stack_encoder set_stack_encoder m.

Definition on_buffer_encoder {A : Type} (m : M (StackLSTM Vec LState) A)
  : M DiscRNNG A := zoom buffer_encoder set_buffer_encoder m.

Definition on_history_encoder {A : Type} (m : M (StackLSTM Vec LState) A)
  : M DiscRNNG A := zoom history_encoder set_history_encoder m.

(** ** Properties *)

(** [finished]: [self._stack[0]] is read only when the length is 1. *)
Definition finished (self : DiscRNNG) : bool :=
  (length (_stack self) =? 1)%nat
  && match head (_stack self) with
     | Some bottom => negb (is_open_nt bottom)
     | None => false
     end
  && (length (_buffer self) =? 0)%nat.

Definition started (self : DiscRNNG) : bool := _started self.

(** ** Legality checks *)

Definition _verify_action : M DiscRNNG unit :=
  is_started <- gets _started ;;
  raise_if (negb is_started) IllegalActionError ;;
  is_finished <- gets finished ;;
  raise_if is_finished IllegalActionError.

Definition verify_push_nt : M DiscRNNG unit :=
  _verify_action ;;
  buffer <- gets _buffer ;;
  raise_if (length buffer =? 0)%nat IllegalActionError ;;
  num_open_nt <- gets _num_open_nt ;;
  raise_if (num_open_nt >=? MAX_OPEN_NT)%Z IllegalActionError.

Definition verify_shift : M DiscRNNG unit :=
  _verify_action ;;
  buffer <- gets _buffer ;;
  raise_if (length buffer =? 0)%nat IllegalActionError ;;
  num_open_nt <- gets _num_open_nt ;;
  raise_if (num_open_nt =? 0)%Z IllegalActionError.

(** [last_is_nt] of [verify_reduce]. *)
Definition last_is_nt (history : list Action) : bool :=
  (0 <? length history)%nat
  && match last history with
     | Some a => is_NTAction a
     | None => false
     end.

Definition verify_reduce : M DiscRNNG unit :=
  _verify_action ;;
  history <- gets _history ;;
  raise_if (last_is_nt history) IllegalActionError ;;
  num_open_nt <- gets _num_open_nt ;;
  buffer <- gets _buffer ;;
  raise_if ((num_open_nt <? 2)%Z && (0 <? length buffer)%nat)
    IllegalActionError.

(** ** Embeddings *)

(** [[d[k] for k in keys]]. *)
Fixpoint lookup_all (d : gmap string Z) (keys : list string)
  : M DiscRNNG (list Z) :=
  match keys with
  | [] => ret []
  | k :: rest =>
      v <- dict_get d k ;;
      vs <- lookup_all d rest ;;
      ret (v :: vs)
  end.

(** [dict(zip(keys, values))]: a later pair overrides an earlier one with
    the same key. *)
Definition dict_of_zip (keys : list Z) (values : list Vec) : gmap Z Vec :=
  fold_left (fun d kv => <[kv.1 := kv.2]> d) (zip keys values) ∅.

Definition _prepare_embeddings (words : list Word) (pos_tags : list POSTag)
  : M DiscRNNG unit :=
  assert (length words =? length pos_tags)%nat ;;
  w2i <- gets word2id ;;
  word_ids <- lookup_all w2i words ;;
  p2i <- gets pos2id ;;
  pos_ids <- lookup_all p2i pos_tags ;;
  net <- gets layers ;;
  let final_word_embs :=
    zip_with (word2encoder net) word_ids pos_ids in
  let final_nt_embs := nt2encoder net in
  let final_action_embs := action2encoder net in
  modify (set_word_emb (dict_of_zip word_ids final_word_embs)) ;;
  modify (set_nt_emb (Some final_nt_embs)) ;;
  modify (set_action_emb (Some final_action_embs)).

(** ** start *)

(** The loop [for word in reversed(words)] of [start], run on the reversed
    list. *)
Fixpoint start_fill (rwords : list Word) : M DiscRNNG unit :=
  match rwords with
  | [] => ret tt
  | word :: rest =>
      modify (fun self => set_buffer (_buffer self ++ [word]) self) ;;
      w2i <- gets word2id ;;
      wid <- dict_get w2i word ;;
      word_emb <- gets _word_emb ;;
      assert (bool_decide (is_Some (word_emb !! wid))) ;;
      v <- dict_get word_emb wid ;;
      on_buffer_encoder (push v) ;;
      start_fill rest
  end.

Definition start (words : list Word) (pos_tags : list POSTag)
  : M DiscRNNG unit :=
  raise_if (negb (length words =? length pos_tags)%nat) ValueError ;;
  raise_if (length words =? 0)%nat ValueError ;;
  modify (set_stack []) ;;
  modify (set_buffer []) ;;
  modify (set_history []) ;;
  modify (set_num_open_nt 0%Z) ;;
  modify (set_started false) ;;
  on_stack_encoder clear ;;
  on_buffer_encoder clear ;;
  on_history_encoder clear ;;
  net <- gets layers ;;
  on_stack_encoder (push (stack_guard net)) ;;
  on_buffer_encoder (push (buffer_guard net)) ;;
  on_history_encoder (push (history_guard net)) ;;
  _prepare_embeddings words pos_tags ;;
  start_fill (rev words) ;;
  modify (set_started true).

(** ** The three transitions *)

Definition _append_history (action : Action) : M DiscRNNG unit :=
  modify (fun self => set_history (_history self ++ [action]) self) ;;
  a2i <- gets actionstr2id ;;
  aid <- dict_get a2i (action_str action) ;;
  action_emb <- gets _action_emb ;;
  match action_emb with
  | None => raise AssertionError
  | Some t => on_history_encoder (push (t aid)) ;; ret tt
  end.

Definition _push_nt (nonterm : NTLabel) : M DiscRNNG unit :=
  n2i <- gets nt2id ;;
  nid <- dict_get n2i nonterm ;;
  nt_emb <- gets _nt_emb ;;
  match nt_emb with
  | None => raise AssertionError
  | Some t =>
      stack_append (mkStackElement (STree nonterm []) (t nid) true) ;;
      on_stack_encoder (push (t nid)) ;;
      modify (fun self => set_num_open_nt (_num_open_nt self + 1)%Z self)
  end.

Definition _shift : M DiscRNNG unit :=
  buffer <- gets _buffer ;;
  assert (0 <? length buffer)%nat ;;
  enc <- gets buffer_encoder ;;
  assert (0 <? len enc)%nat ;;
  word <- buffer_pop ;;
  on_buffer_encoder pop ;;
  w2i <- gets word2id ;;
  wid <- dict_get w2i word ;;
  word_emb <- gets _word_emb ;;
  v <- dict_get word_emb wid ;;
  stack_append (mkStackElement (SWord word) v false) ;;
  word_emb' <- gets _word_emb ;;
  v' <- dict_get word_emb' wid ;;
  on_stack_encoder (push v') ;;
  ret tt.

(** [_compose]: the opener followed by the children in order through
    [fwd_composer], the opener followed by the children in reverse order
    through [bwd_composer], and the two results through [fwdbwd2composed]. *)
Definition _compose (net : Layers) (open_nt_emb : Vec)
    (children_embs : list Vec) : Vec :=
  let fwd_input := open_nt_emb :: children_embs in
  let bwd_input := open_nt_emb :: rev children_embs in
  fwdbwd2composed net (fwd_composer net fwd_input)
    (bwd_composer net bwd_input).

(** The [while] loop of [_reduce]: pops the stack while its top is not an
    open nonterminal, collecting [(subtree, emb)] in pop order.  A round
    pops one element, so [length (_stack self)] rounds reach the exit test
    (see [reduce_loop_exit]). *)
Fixpoint _reduce_loop (fuel : nat) (children : list (Subtree * Vec))
  : M DiscRNNG (list (Subtree * Vec)) :=
  match fuel with
  | O => ret children
  | S fuel' =>
      stack <- gets _stack ;;
      if (0 <? length stack)%nat
         && match last stack with
            | Some x => negb (is_open_nt x)
            | None => false
            end
      then
        x <- stack_pop ;;
        _reduce_loop fuel' (children ++ [(subtree x, emb x)])
      else ret children
  end.

Definition _reduce : M DiscRNNG unit :=
  stack0 <- gets _stack ;;
  children <- _reduce_loop (length stack0) [] ;;
  assert (0 <? length children)%nat ;;
  stack <- gets _stack ;;
  assert (0 <? length stack)%nat ;;
  let children := rev children in
  let child_subtrees := children.*1 in
  let child_embs := children.*2 in
  open_nt <- stack_pop ;;
  match subtree open_nt with
  | SWord _ => raise AssertionError
  | STree label kids =>
      let parent_subtree := STree label (kids ++ child_subtrees) in
      net <- gets layers ;;
      let composed_emb := _compose net (emb open_nt) child_embs in
      stack_append (mkStackElement parent_subtree composed_emb false) ;;
      modify (fun self => set_num_open_nt (_num_open_nt self - 1)%Z self) ;;
      num_open_nt <- gets _num_open_nt ;;
      assert (num_open_nt >=? 0)%Z
  end.

Definition push_nt (nonterm : NTLabel) : M DiscRNNG unit :=
  let action := NTAction nonterm in
  verify_push_nt ;;
  _push_nt nonterm ;;
  _append_history action.

Definition shift : M DiscRNNG unit :=
  verify_shift ;;
  _shift ;;
  _append_history ShiftAction.

Definition reduce : M DiscRNNG unit :=
  verify_reduce ;;
  _reduce ;;
  _append_history ReduceAction.

(** Modelled from the spec: [Action.verify_on] and [Action.execute_on] of
    [rnng.actions], which dispatch on the action to the parser's methods
    (spec, section 4.2). *)
Definition verify_on (action : Action) : M DiscRNNG unit :=
  match action with
  | ShiftAction => verify_shift
  | ReduceAction => verify_reduce
  | NTAction _ => verify_push_nt
  end.

Definition execute_on (action : Action) : M DiscRNNG unit :=
  match action with
  | ShiftAction => shift
  | ReduceAction => reduce
  | NTAction label => push_nt label
  end.

(** Modelled from the spec: [Action.from_string] called from the parser; a
    string that is no canonical form raises (here [ValueError]). *)
Definition action_of_string (astr : string) : M DiscRNNG Action :=
  match from_string astr with
  | Some action => ret action
  | None => raise ValueError
  end.

(** ** Scoring *)

(** [try: body except e: handler]. *)
Definition try_except {S A : Type} (body : M S A) (e : exn)
    (handler : M S A) : M S A :=
  fun s =>
    match body s with
    | (Ok a, s') => (Ok a, s')
    | (Raise e', s') =>
        if decide (e' = e) then handler s' else (Raise e', s')
    end.

Definition _is_legal (astr : string) : M DiscRNNG bool :=
  action <- action_of_string astr ;;
  try_except (verify_on action ;; ret true) IllegalActionError (ret false).

(** The comprehension of [_get_illegal_action_ids] over the items of
    [actionstr2id]. *)
Fixpoint illegal_among (items : list (string * ActionId))
  : M DiscRNNG (list ActionId) :=
  match items with
  | [] => ret []
  | (astr, aid) :: rest =>
      legal <- _is_legal astr ;;
      ids <- illegal_among rest ;;
      ret (if legal then ids else aid :: ids)
  end.

Definition _get_illegal_action_ids : M DiscRNNG (option (list ActionId)) :=
  a2i <- gets actionstr2id ;;
  illegal_action_ids <- illegal_among (map_to_list a2i) ;;
  match illegal_action_ids with
  | [] => ret None
  | _ :: _ => ret (Some illegal_action_ids)
  end.

Definition compute_action_log_probs : M DiscRNNG Tensor :=
  is_started <- gets _started ;;
  raise_if (negb is_started) RuntimeError ;;
  s_enc <- gets stack_encoder ;;
  b_enc <- gets buffer_encoder ;;
  h_enc <- gets history_encoder ;;
  match top s_enc, top b_enc, top h_enc with
  | Some s_top, Some b_top, Some h_top =>
      net <- gets layers ;;
      let parser_summary := encoders2summary net s_top b_top h_top in
      illegal_action_ids <- _get_illegal_action_ids ;;
      ret (log_softmax (summary2actionlogprobs net parser_summary)
             illegal_action_ids)
  | _, _, _ => raise AssertionError
  end.

(** ** The two drivers *)

(** The loop of [forward] over the gold actions; the result of the [try]
    says whether the loop goes on. *)
Fixpoint forward_loop (actions : list Action) (llh : Scalar)
  : M DiscRNNG Scalar :=
  match actions with
  | [] => ret llh
  | action :: rest =>
      log_probs <- compute_action_log_probs ;;
      a2i <- gets actionstr2id ;;
      aid <- dict_get a2i (action_str action) ;;
      let llh := scalar_add llh (tensor_item log_probs aid) in
      go_on <- try_except (execute_on action ;; ret true)
                 IllegalActionError (ret false) ;;
      if go_on : bool then forward_loop rest llh else ret llh
  end.

Definition forward (words : list Word) (pos_tags : list POSTag)
    (actions : list Action) : M DiscRNNG Scalar :=
  start words pos_tags ;;
  llh <- forward_loop actions scalar_zero ;;
  ret (scalar_neg llh).

(** [{v: k for k, v in actionstr2id.items()}]. *)
Definition invert (d : gmap string ActionId) : gmap ActionId string :=
  fold_left (fun acc kv => <[kv.2 := kv.1]> acc) (map_to_list d) ∅.

(** The [while not self.finished] loop of [decode].  [fuel] bounds the
    number of rounds; [None] is returned only when the bound is hit with the
    parser unfinished. *)
Fixpoint decode_loop (fuel : nat) (id2actionstr : gmap ActionId string)
    (best_action_ids : list ActionId) : M DiscRNNG (option (list ActionId)) :=
  fun self =>
    if finished self then (Ok (Some best_action_ids), self)
    else
      match fuel with
      | O => (Ok None, self)
      | S fuel' =>
          (log_probs <- compute_action_log_probs ;;
           let max_a := tensor_argmax log_probs in
           astr <- dict_get id2actionstr max_a ;;
           action <- action_of_string astr ;;
           execute_on action ;;
           decode_loop fuel' id2actionstr (best_action_ids ++ [max_a])) self
      end.

Definition decode (fuel : nat) (words : list Word) (pos_tags : list POSTag)
  : M DiscRNNG (option (list ActionId)) :=
  start words pos_tags ;;
  a2i <- gets actionstr2id ;;
  let id2actionstr := invert a2i in
  decode_loop fuel id2actionstr [].

End Parser.

(** * Notions used in the statements *)

(** A computation [preserves] a view [f] of the state when [f] reads the
    same before and after, whatever the outcome. *)
Definition preserves {S T A : Type} (f : S -> T) (m : M S A) : Prop :=
  forall s, f (m s).2 = f s.

Section Notions.
Context `{Torch}.
Implicit Types self m : DiscRNNG.

(** The checks as boolean conditions on the state. *)
Definition can_act self : bool := _started self && negb (finished self).

Definition can_push_nt self : bool :=
  can_act self && negb (length (_buffer self) =? 0)%nat
  && negb (_num_open_nt self >=? MAX_OPEN_NT)%Z.

Definition can_shift self : bool :=
  can_act self && negb (length (_buffer self) =? 0)%nat
  && negb (_num_open_nt self =? 0)%Z.

Definition can_reduce self : bool :=
  can_act self && negb (last_is_nt (_history self))
  && negb ((_num_open_nt self <? 2)%Z && (0 <? length (_buffer self))%nat).

Definition check (c : bool) self : result unit * DiscRNNG :=
  (if c then Ok tt else Raise IllegalActionError, self).

Definition can_do (action : Action) self : bool :=
  match action with
  | ShiftAction => can_shift self
  | ReduceAction => can_reduce self
  | NTAction _ => can_push_nt self
  end.

(** What [_reduce] collects from a stack element. *)
Definition strip (x : StackElement) : Subtree * Vec := (subtree x, emb x).

(** The element [_reduce] pushes for the opener [o] and the children [cs],
    given in stack order. *)
Definition composed (net : Layers) (o : StackElement) (label : NTLabel)
    (kids : list Subtree) (cs : list StackElement) : StackElement :=
  mkStackElement (STree label (kids ++ map subtree cs))
    (_compose net (emb o) (map emb cs)) false.

(** The number of stack elements that are open nonterminals. *)
Definition count_open (stack : list StackElement) : Z :=
  Z.of_nat (length (filter (fun x => is_open_nt x = true) stack)).

(** The states of a parser after a successful [start] and any number of
    successfully applied actions. *)
Inductive reachable : DiscRNNG -> Prop :=
  | reachable_start m0 words pos_tags m :
      start words pos_tags m0 = (Ok tt, m) -> reachable m
  | reachable_step m action m' :
      reachable m -> execute_on action m = (Ok tt, m') -> reachable m'.

(** The transitions as a relation: [step action m m'] lists what a
    successful [execute_on action] needs of [m] and gives the parser [m'] it
    leaves ([execute_on_step] proves the two agree). *)
Inductive step : Action -> DiscRNNG -> DiscRNNG -> Prop :=
  | step_push_nt m nonterm nid t st se aid ta st' he :
      can_push_nt m = true ->
      nt2id m !! nonterm = Some nid ->
      _nt_emb m = Some t ->
      push (t nid) (stack_encoder m) = (Ok st, se) ->
      actionstr2id m !! action_str (NTAction nonterm) = Some aid ->
      _action_emb m = Some ta ->
      push (ta aid) (history_encoder m) = (Ok st', he) ->
      step (NTAction nonterm) m
        {| word2id := word2id m; pos2id := pos2id m; nt2id := nt2id m;
           actionstr2id := actionstr2id m; layers := layers m;
           _stack :=
             _stack m ++ [mkStackElement (STree nonterm []) (t nid) true];
           _buffer := _buffer m;
           _history := _history m ++ [NTAction nonterm];
           _num_open_nt := (_num_open_nt m + 1)%Z;
           _started := _started m;
           stack_encoder := se;
           buffer_encoder := buffer_encoder m;
           history_encoder := he;
           _word_emb := _word_emb m; _nt_emb := _nt_emb m;
           _action_emb := _action_emb m |}
  | step_shift m word rest wid v st be st' se aid ta st'' he :
      can_shift m = true ->
      _buffer m = rest ++ [word] ->
      len (buffer_encoder m) <> 0 ->
      pop (buffer_encoder m) = (Ok st, be) ->
      word2id m !! word = Some wid ->
      _word_emb m !! wid = Some v ->
      push v (stack_encoder m) = (Ok st', se) ->
      actionstr2id m !! action_str ShiftAction = Some aid ->
      _action_emb m = Some ta ->
      push (ta aid) (history_encoder m) = (Ok st'', he) ->
      step ShiftAction m
        {| word2id := word2id m; pos2id := pos2id m; nt2id := nt2id m;
           actionstr2id := actionstr2id m; layers := layers m;
           _stack := _stack m ++ [mkStackElement (SWord word) v false];
           _buffer := rest;
           _history := _history m ++ [ShiftAction];
           _num_open_nt := _num_open_nt m;
           _started := _started m;
           stack_encoder := se;
           buffer_encoder := be;
           history_encoder := he;
           _word_emb := _word_emb m; _nt_emb := _nt_emb m;
           _action_emb := _action_emb m |}
  | step_reduce m pre o cs label kids aid ta st he :
      can_reduce m = true ->
      _stack m = pre ++ [o] ++ cs ->
      cs <> [] ->
      Forall (fun x => is_open_nt x = false) cs ->
      is_open_nt o = true ->
      subtree o = STree label kids ->
      (1 <= _num_open_nt m)%Z ->
      actionstr2id m !! action_str ReduceAction = Some aid ->
      _action_emb m = Some ta ->
      push (ta aid) (history_encoder m) = (Ok st, he) ->
      step ReduceAction m
        {| word2id := word2id m; pos2id := pos2id m; nt2id := nt2id m;
           actionstr2id := actionstr2id m; layers := layers m;
           _stack := pre ++ [composed (layers m) o label kids cs];
           _buffer := _buffer m;
           _history := _history m ++ [ReduceAction];
           _num_open_nt := (_num_open_nt m - 1)%Z;
           _started := _started m;
           stack_encoder := stack_encoder m;
           buffer_encoder := buffer_encoder m;
           history_encoder := he;
           _word_emb := _word_emb m; _nt_emb := _nt_emb m;
           _action_emb := _action_emb m |}.

(** [pushed n e e']: [e'] is [e] after [n] successful pushes. *)
Inductive pushed : nat -> StackLSTM Vec LState -> StackLSTM Vec LState -> Prop :=
  | pushed_O e : pushed 0 e e
  | pushed_S n e v st e1 e' :
      push v e = (Ok st, e1) -> pushed n e1 e' -> pushed (S n) e e'.

(** The last action and the top of the stack agree: nothing has been done
    and the stack is empty, or the top is an open nonterminal exactly when
    the last action opened one. *)
Definition top_matches_history m : Prop :=
  match last (_history m) with
  | None => _stack m = []
  | Some a => exists x, last (_stack m) = Some x /\ is_open_nt x = is_NTAction a
  end.

(** Until the parser has finished, the bottom of the stack is open. *)
Definition bottom_open m : Prop :=
  finished m = false ->
  forall b, head (_stack m) = Some b -> is_open_nt b = true.

(** The invariant of the symbolic part of the parser. *)
Record sym_inv m : Prop := {
  inv_started : _started m = true;
  inv_count : _num_open_nt m = count_open (_stack m);
  inv_cap : (_num_open_nt m <= MAX_OPEN_NT)%Z;
  inv_tree :
    Forall (fun x => is_open_nt x = true -> is_Tree (subtree x) = true)
      (_stack m);
  inv_top : top_matches_history m;
  inv_bottom : bottom_open m;
  inv_buffer :
    last_is_nt (_history m) = true \/ _history m = [] -> _buffer m <> [];
}.

(** A word whose id and final embedding are known to the parser. *)
Definition resolves m (w : Word) : Prop :=
  exists wid v, word2id m !! w = Some wid /\ _word_emb m !! wid = Some v.

(** The invariant of the encoders and of the final embeddings: the stack
    and history encoders are well formed and not empty, the buffer encoder
    holds the guard and one entry per word of the buffer, the words of the
    buffer resolve, and the embeddings have been prepared. *)
Record enc_inv m : Prop := {
  inv_stack_enc : enc_wf (stack_encoder m) /\ len (stack_encoder m) <> 0;
  inv_history_enc :
    enc_wf (history_encoder m) /\ len (history_encoder m) <> 0;
  inv_buffer_enc :
    enc_wf (buffer_encoder m) /\
    len (buffer_encoder m) = S (length (_buffer m));
  inv_words : Forall (resolves m) (_buffer m);
  inv_nt_emb : is_Some (_nt_emb m);
  inv_action_emb : is_Some (_action_emb m);
}.

(** An action the parser has an id for, with a known label if it opens a
    nonterminal. *)
Definition known m (action : Action) : Prop :=
  is_Some (actionstr2id m !! action_str action) /\
  match action with
  | NTAction label => is_Some (nt2id m !! label)
  | _ => True
  end.

(** Every string of the action vocabulary is the canonical form of a known
    action. *)
Definition vocab_parses m : Prop :=
  forall astr aid,
    actionstr2id m !! astr = Some aid ->
    exists action, from_string astr = Some action /\ known m action.

(** The checks of the last three definitions as boolean tests, and what a
    run needs of the parser and of its input: well-formed encoders, a
    vocabulary of canonical strings with known labels, as many POS tags as
    words, at least one word, and only known words and tags. *)
Definition known_b m (action : Action) : bool :=
  bool_decide (is_Some (actionstr2id m !! action_str action))
  && match action with
     | NTAction label => bool_decide (is_Some (nt2id m !! label))
     | _ => true
     end.

Definition vocab_ok m : bool :=
  forallb
    (fun kv =>
       match from_string kv.1 with
       | Some action => known_b m action
       | None => false
       end)
    (map_to_list (actionstr2id m)).

Definition enc_wf_b (e : StackLSTM Vec LState) : bool :=
  (length (_states_hist e) =? S (length (_outputs_hist e)))%nat.

Definition parser_ok m : bool :=
  enc_wf_b (stack_encoder m) && enc_wf_b (buffer_encoder m)
  && enc_wf_b (history_encoder m) && vocab_ok m.

Definition input_ok m (words : list Word) (pos_tags : list POSTag) : bool :=
  (length words =? length pos_tags)%nat && negb (length words =? 0)%nat
  && forallb (fun w => bool_decide (is_Some (word2id m !! w))) words
  && forallb (fun p => bool_decide (is_Some (pos2id m !! p))) pos_tags.

(** The ids [_get_illegal_action_ids] collects from the items of the
    action vocabulary, and the restriction it returns. *)
Fixpoint illegal_list m (items : list (string * ActionId)) : list ActionId :=
  match items with
  | [] => []
  | (astr, aid) :: rest =>
      match from_string astr with
      | Some action =>
          if can_do action m then illegal_list m rest
          else aid :: illegal_list m rest
      | None => illegal_list m rest
      end
  end.

Definition restrictions m : option (list ActionId) :=
  match illegal_list m (map_to_list (actionstr2id m)) with
  | [] => None
  | ids => Some ids
  end.

(** The tensor [compute_action_log_probs] returns in a state whose three
    encoders are not empty. *)
Definition log_probs m : option Tensor :=
  match top (stack_encoder m), top (buffer_encoder m),
        top (history_encoder m) with
  | Some s_top, Some b_top, Some h_top =>
      Some (log_softmax
              (summary2actionlogprobs (layers m)
                 (encoders2summary (layers m) s_top b_top h_top))
              (restrictions m))
  | _, _, _ => None
  end.

(** The log-probability the scorer gives to [action] in state [m]
    ([scalar_zero] stands for a score that cannot be computed). *)
Definition score m (action : Action) : Scalar :=
  match log_probs m, actionstr2id m !! action_str action with
  | Some t, Some aid => tensor_item t aid
  | _, _ => scalar_zero
  end.

(** The scores the spec has [scoreSequence] accumulate: that of each gold
    action in turn, in the state reached by the actions before it, up to
    and including the first one that is illegal where it stands. *)
Fixpoint gold_scores (actions : list Action) m : list Scalar :=
  match actions with
  | [] => []
  | action :: rest =>
      score m action
      :: (if can_do action m then gold_scores rest (execute_on action m).2
          else [])
  end.

Definition total (scores : list Scalar) : Scalar :=
  fold_left scalar_add scores scalar_zero.

(** The ids of the action vocabulary. *)
Definition vocab_ids (a2i : gmap string ActionId) : list ActionId :=
  (map_to_list a2i).*2.

(** The vocabulary holds ["SHIFT"], ["REDUCE"] and the canonical string of
    at least one [NTAction] (the first two are what [__init__] insists
    on). *)
Definition vocab_complete m : bool :=
  bool_decide (is_Some (actionstr2id m !! "SHIFT"))
  && bool_decide (is_Some (actionstr2id m !! "REDUCE"))
  && existsb
       (fun kv =>
          match from_string kv.1 with
          | Some (NTAction _) => true
          | _ => false
          end)
       (map_to_list (actionstr2id m)).

(** No two action strings share an id. *)
Definition ids_distinct m : bool :=
  bool_decide (NoDup (vocab_ids (actionstr2id m))).

(** What [decode] needs of the numerics: whenever some id of the
    vocabulary is not masked, the index [torch.max] returns for the masked
    [log_softmax] of the scores is an id of the vocabulary that is not
    masked. *)
Definition mask_respected (net : Layers) (a2i : gmap string ActionId)
  : Prop :=
  forall (summary : Vec) (illegal : option (list ActionId)),
    (exists a, a ∈ vocab_ids a2i /\ a ∉ default [] illegal) ->
    let best :=
      tensor_argmax
        (log_softmax (summary2actionlogprobs net summary) illegal) in
    best ∈ vocab_ids a2i /\ best ∉ default [] illegal.

(** The numbers of actions of each kind in a history. *)
Definition shifts (history : list Action) : nat :=
  length (filter (fun a => a = ShiftAction) history).

Definition reduces (history : list Action) : nat :=
  length (filter (fun a => a = ReduceAction) history).

Definition opens (history : list Action) : nat :=
  length (filter (fun a => is_NTAction a = true) history).

(** The tally of a parse of [n] words: every word is in the buffer or has
    been shifted, and every opened nonterminal is still open or has been
    reduced. *)
Definition tally (n : nat) m : Prop :=
  shifts (_history m) + length (_buffer m) = n /\
  Z.of_nat (opens (_history m)) =
    (Z.of_nat (reduces (_history m)) + _num_open_nt m)%Z.

(** A bound on the number of actions left: each transition lowers it, and
    it is [MAX_OPEN_NT + 1] when the parser has finished. *)
Definition potential m : Z :=
  (2 * (MAX_OPEN_NT + 1) * Z.of_nat (length (_buffer m))
   + (if last_is_nt (_history m) then MAX_OPEN_NT - _num_open_nt m
      else MAX_OPEN_NT + 1 + _num_open_nt m))%Z.

(** What [decode] needs of the vocabulary and of the numerics; none of it
    changes during a parse. *)
Definition decode_ready m : Prop :=
  vocab_parses m /\ vocab_complete m = true /\ ids_distinct m = true /\
  mask_respected (layers m) (actionstr2id m).

(** Runs the actions in order, stopping at the first exception. *)
Fixpoint run (actions : list Action) : M DiscRNNG unit :=
  match actions with
  | [] => ret tt
  | action :: rest => execute_on action ;; run rest
  end.

End Notions.

(** ** A concrete model *)

(** An instance of the torch interface over the integers, and a small
    parser over it, on which the definitions above can be run.  A score is
    an integer or [None] for minus infinity; a tensor lists the scores of
    the action ids [0, 1, ...]. *)
Module Demo.

(** Forces the listed positions of a tensor to minus infinity. *)
Definition mask (t : list (option Z)) (restrictions : option (list Z))
  : list (option Z) :=
  match restrictions with
  | None => t
  | Some ids =>
      imap (fun i x => if bool_decide (Z.of_nat i ∈ ids) then None else x) t
  end.

Definition score_lt (x y : option Z) : bool :=
  match x, y with
  | _, None => false
  | None, Some _ => true
  | Some a, Some b => (a <? b)%Z
  end.

(** Index of the largest score from position [i] on, the lowest index
    winning a tie; [best] is the leader so far. *)
Fixpoint argmax_from (i : Z) (best : Z * option Z) (t : list (option Z)) : Z :=
  match t with
  | [] => best.1
  | x :: rest =>
      argmax_from (i + 1)%Z (if score_lt best.2 x then (i, x) else best) rest
  end.

Definition argmax (t : list (option Z)) : Z := argmax_from 0%Z (0%Z, None) t.

Definition item (t : list (option Z)) (i : Z) : option Z :=
  if (i <? 0)%Z then None else default None (t !! Z.to_nat i).

Definition torch : Torch :=
  {| Vec := Z;
     LState := Z;
     Tensor := list (option Z);
     Scalar := option Z;
     log_softmax := mask;
     tensor_item := item;
     tensor_argmax := argmax;
     scalar_zero := Some 0%Z;
     scalar_add := fun x y => a ← x; b ← y; Some (a + b)%Z;
     scalar_neg := fun x => Z.opp <$> x |}.

(** A cell that counts: the output is the input plus the number of
    elements below it. *)
Definition cell (v h : Z) : Z * Z := ((v + h)%Z, (h + 1)%Z).

(** Scores that do not depend on the state and prefer, among the legal
    actions, [NT(S)] to [REDUCE] to [SHIFT] to [NT(NP)]. *)
Definition net : @Layers torch :=
  @mkLayers torch
    (* word2encoder *) (fun wid pid => (100 + 10 * wid + pid)%Z)
    (* nt2encoder *) (fun nid => (200 + nid)%Z)
    (* action2encoder *) (fun aid => (300 + aid)%Z)
    (* stack_guard *) 0%Z
    (* buffer_guard *) 0%Z
    (* history_guard *) 0%Z
    (* fwd_composer *) (fun vs => foldr Z.add 0%Z vs)
    (* bwd_composer *) (fun vs => foldr Z.add 0%Z vs)
    (* fwdbwd2composed *) (fun a b => (a + b)%Z)
    (* encoders2summary *) (fun s b h => (s + b + h)%Z)
    (* summary2actionlogprobs *)
    (fun _ => [Some 1%Z; Some 2%Z; Some 3%Z; Some 0%Z]).

(** The parser as [__init__] leaves it. *)
Definition parser : @DiscRNNG torch :=
  @mkDiscRNNG torch
    (* word2id *) {[ "the" := 0%Z; "dog" := 1%Z; "ran" := 2%Z ]}
    (* pos2id *) {[ "DT" := 0%Z; "NN" := 1%Z; "VBD" := 2%Z ]}
    (* nt2id *) {[ "S" := 0%Z; "NP" := 1%Z ]}
    (* actionstr2id *)
    {[ "SHIFT" := 0%Z; "REDUCE" := 1%Z; "NT(S)" := 2%Z; "NT(NP)" := 3%Z ]}
    (* layers *) net
    (* _stack *) []
    (* _buffer *) []
    (* _history *) []
    (* _num_open_nt *) 0%Z
    (* _started *) false
    (* stack_encoder *) (StackLSTM_init cell 0%Z)
    (* buffer_encoder *) (StackLSTM_init cell 0%Z)
    (* history_encoder *) (StackLSTM_init cell 0%Z)
    (* _word_emb *) ∅
    (* _nt_emb *) None
    (* _action_emb *) None.

(** The parser started on a one-word sentence, and the same after an Open
    and a Shift, where Reduce is due. *)
Definition started : @DiscRNNG torch := (start ["the"] ["DT"] parser).2.

Definition before_reduce : @DiscRNNG torch :=
  (run [NTAction "S"; ShiftAction] started).2.

(** A gold sequence whose third action is illegal where it stands. *)
Definition gold : list Action :=
  [NTAction "S"; ShiftAction; ReduceAction; ShiftAction].

End Demo.

(** * Properties *)

(** ** Lists used as stacks *)

Lemma py_pop_snoc {A : Type} (l : list A) (x : A) :
  py_pop (l ++ [x]) = Some (x, l).
Proof. unfold py_pop. by rewrite last_snoc, removelast_last. Qed.

Lemma py_pop_nil {A : Type} : py_pop (@nil A) = None.
Proof. reflexivity. Qed.

Lemma py_pop_Some {A : Type} (l l' : list A) (x : A) :
  py_pop l = Some (x, l') -> l = l' ++ [x].
Proof.
  unfold py_pop. destruct (last l) as [y|] eqn:E; [|done].
  intros [= <- <-]. apply last_Some in E as [l' ->].
  by rewrite removelast_last.
Qed.

Lemma py_pop_None {A : Type} (l : list A) : py_pop l = None -> l = [].
Proof.
  unfold py_pop. destruct (last l) eqn:E; [done|]. intros _.
  by apply last_None.
Qed.

Lemma snoc_case {A : Type} (l : list A) :
  l = [] \/ exists l' x, l = l' ++ [x].
Proof. induction l using rev_ind; eauto. Qed.


(** ** The encoder *)

Section EncoderFacts.
Context {Vec LState : Type}.
Implicit Types e : StackLSTM Vec LState.

Lemma push_wf e v r e' : enc_wf e -> push v e = (r, e') -> enc_wf e'.
Proof.
  unfold enc_wf, push, forward_enc. intros Hwf.
  destruct (last (_states_hist e)) as [prev|]; [|by intros [= <- <-]].
  destruct (lstm e v prev) as [o st]. intros [= <- <-]. simpl.
  rewrite !length_app. simpl. lia.
Qed.

Lemma pop_wf e r e' : enc_wf e -> pop e = (r, e') -> enc_wf e'.
Proof.
  unfold enc_wf, pop. intros Hwf.
  destruct (1 <? length (_states_hist e))%nat eqn:Hlen;
    [|by intros [= <- <-]].
  destruct (py_pop (_outputs_hist e)) as [[o outs]|] eqn:Ho;
    [|by intros [= <- <-]].
  simpl. destruct (py_pop (_states_hist e)) as [[st sts]|] eqn:Hs.
  - intros [= <- <-]. simpl.
    apply py_pop_Some in Ho, Hs. rewrite Ho, Hs in Hwf.
    rewrite !length_app in Hwf. simpl in Hwf. lia.
  - apply py_pop_None in Hs. rewrite Hs in Hlen. done.
Qed.

Lemma enc_reachable_wf e : enc_reachable e -> enc_wf e.
Proof.
  induction 1 as [| e v r e' _ IH Hp | e r e' _ IH Hp].
  - reflexivity.
  - eapply push_wf; eauto.
  - eapply pop_wf; eauto.
Qed.

(** What [push] does to a well-formed encoder. *)
Lemma push_spec e v :
  enc_wf e ->
  exists prev, last (_states_hist e) = Some prev /\
    push v e =
      (Ok (lstm e v prev).2,
       {| lstm := lstm e;
          _states_hist := _states_hist e ++ [(lstm e v prev).2];
          _outputs_hist := _outputs_hist e ++ [(lstm e v prev).1] |}).
Proof.
  unfold enc_wf. intros Hwf.
  destruct (last (_states_hist e)) as [prev|] eqn:E.
  - exists prev. split; [done|]. unfold push, forward_enc. rewrite E.
    by destruct (lstm e v prev).
  - apply last_None in E. rewrite E in Hwf. done.
Qed.

Lemma pop_snoc (cell : Vec -> LState -> Vec * LState)
    (sts : list LState) (st : LState) (outs : list Vec) (o : Vec) :
  sts <> [] ->
  pop {| lstm := cell; _states_hist := sts ++ [st];
         _outputs_hist := outs ++ [o] |}
  = (Ok st, {| lstm := cell; _states_hist := sts; _outputs_hist := outs |}).
Proof.
  intros Hne. unfold pop. simpl.
  assert ((1 <? length (sts ++ [st]))%nat = true) as ->.
  { apply Nat.ltb_lt. rewrite length_app. simpl.
    destruct sts; [done|]. simpl. lia. }
  by rewrite !py_pop_snoc.
Qed.

Lemma pop_empty e :
  enc_wf e -> len e = 0%nat -> pop e = (Raise EmptyStackError, e).
Proof.
  unfold enc_wf, len, pop. intros Hwf Hlen. rewrite Hwf, Hlen. done.
Qed.

Lemma pop_nonempty e :
  enc_wf e -> len e <> 0%nat ->
  exists st sts o outs,
    _states_hist e = sts ++ [st] /\ _outputs_hist e = outs ++ [o] /\
    sts <> [] /\
    pop e = (Ok st, {| lstm := lstm e; _states_hist := sts;
                       _outputs_hist := outs |}).
Proof.
  unfold enc_wf, len. destruct e as [cell sts outs]. simpl.
  intros Hwf Hlen.
  destruct (snoc_case outs) as [->|(outs' & o & ->)]; [done|].
  destruct (snoc_case sts) as [->|(sts' & st & ->)]; [done|].
  exists st, sts', o, outs'. rewrite !length_app in Hwf. simpl in Hwf.
  assert (sts' <> []) by (intros ->; simpl in Hwf; lia).
  repeat split; [done|]. by apply pop_snoc.
Qed.

Lemma pop_len e st e' : pop e = (Ok st, e') -> len e = S (len e').
Proof.
  unfold pop, len.
  destruct (1 <? length (_states_hist e))%nat; [|done].
  destruct (py_pop (_outputs_hist e)) as [[o outs]|] eqn:Ho; [|done].
  simpl. destruct (py_pop (_states_hist e)) as [[s sts]|]; [|done].
  intros [= <- <-]. simpl. apply py_pop_Some in Ho as ->.
  rewrite length_app. simpl. lia.
Qed.

(** The loop of [start] that empties an encoder ends on its exit test:
    with [len e] rounds it either raises or leaves an empty encoder. *)
Lemma pop_all_exit fuel e r e' :
  len e <= fuel -> pop_all fuel e = (r, e') -> r = Ok tt -> len e' = 0.
Proof.
  revert e. induction fuel as [|fuel IH]; intros e Hle; simpl.
  - intros [= <- <-] _. lia.
  - destruct (0 <? len e)%nat eqn:Hpos.
    + unfold bind. destruct (pop e) as [[st|ex] e1] eqn:Hp.
      * intros Hrec Hr. apply pop_len in Hp.
        eapply IH; [|exact Hrec|exact Hr]. lia.
      * intros [= <- <-]. done.
    + intros [= <- <-] _. apply Nat.ltb_ge in Hpos. lia.
Qed.

Lemma pop_all_wf fuel e :
  enc_wf e -> len e <= fuel ->
  pop_all fuel e =
    (Ok tt, {| lstm := lstm e;
               _states_hist := take 1 (_states_hist e);
               _outputs_hist := [] |}).
Proof.
  revert e. induction fuel as [|fuel IH]; intros e Hwf Hle; simpl.
  - unfold enc_wf, len in *. destruct e as [c sts outs]; simpl in *.
    destruct outs; [|simpl in Hle; lia].
    destruct sts as [|s [|]]; simpl in *; try lia. done.
  - destruct (0 <? len e)%nat eqn:Hpos.
    + apply Nat.ltb_lt in Hpos.
      destruct (pop_nonempty e Hwf) as (st & sts & o & outs & Hs & Ho & Hne & Hp);
        [lia|].
      unfold bind. rewrite Hp. rewrite IH.
      * simpl. rewrite Hs. f_equal. f_equal.
        destruct sts; [done|]. reflexivity.
      * unfold enc_wf in *. simpl. rewrite Hs, Ho, !length_app in Hwf.
        simpl in Hwf. lia.
      * unfold len in *. simpl. rewrite Ho, length_app in Hle. simpl in Hle.
        lia.
    + apply Nat.ltb_ge in Hpos. unfold enc_wf, len in *.
      destruct e as [c sts outs]; simpl in *.
      destruct outs; [|simpl in Hpos; lia].
      destruct sts as [|s [|]]; simpl in *; try lia. done.
Qed.

(** C8. For every encoder built by [__init__] and changed by [push] and
    [pop]: a [push] followed by a [pop] gives back the encoder as it was
    before the [push], summary included, and returns the states the [push]
    returned; a [pop] on a nonempty encoder removes the last output and the
    last states, so that [top] is the output of the previous push; a [pop]
    raises [EmptyStackError] exactly when the length is 0, and then leaves
    the encoder as it was. *)
Theorem pop_undoes_push e :
  enc_reachable e ->
  (forall v, exists st e1,
      push v e = (Ok st, e1) /\ pop e1 = (Ok st, e) /\
      top (pop e1).2 = top e) /\
  (len e <> 0 ->
   exists st sts o outs,
     _states_hist e = sts ++ [st] /\ _outputs_hist e = outs ++ [o] /\
     pop e = (Ok st, {| lstm := lstm e; _states_hist := sts;
                        _outputs_hist := outs |}) /\
     top (pop e).2 = last outs /\ len (pop e).2 = pred (len e)) /\
  ((pop e).1 = Raise EmptyStackError <-> len e = 0) /\
  (len e = 0 -> (pop e).2 = e).
Proof.
  intros Hwf%enc_reachable_wf. repeat split.
  - intros v. destruct (push_spec e v Hwf) as (prev & Hlast & Hpush).
    eexists _, _. split; [exact Hpush|].
    assert (pop {| lstm := lstm e;
                   _states_hist := _states_hist e ++ [(lstm e v prev).2];
                   _outputs_hist := _outputs_hist e ++ [(lstm e v prev).1] |}
            = (Ok (lstm e v prev).2, e)) as Hpop.
    { rewrite pop_snoc; [by destruct e|].
      intros Hnil. by rewrite Hnil in Hlast. }
    by rewrite Hpop.
  - intros Hlen.
    destruct (pop_nonempty e Hwf Hlen) as (st & sts & o & outs & Hs & Ho & _ & Hp).
    exists st, sts, o, outs. rewrite Hp. repeat split; try done.
    unfold len. simpl. rewrite Ho, length_app. simpl. lia.
  - intros Hraise. destruct (decide (len e = 0)) as [|Hne]; [done|].
    destruct (pop_nonempty e Hwf Hne) as (st & sts & o & outs & _ & _ & _ & Hp).
    by rewrite Hp in Hraise.
  - intros Hlen. by rewrite pop_empty.
  - intros Hlen. by rewrite pop_empty.
Qed.

End EncoderFacts.

(** ** The monad *)

Lemma bind_Ok {S A B : Type} (m : M S A) (k : A -> M S B) s a s1 :
  m s = (Ok a, s1) -> bind m k s = k a s1.
Proof. unfold bind. by intros ->. Qed.

Lemma bind_Raise {S A B : Type} (m : M S A) (k : A -> M S B) s e s1 :
  m s = (Raise e, s1) -> bind m k s = (Raise e, s1).
Proof. unfold bind. by intros ->. Qed.

Lemma bind_inv_Ok {S A B : Type} (m : M S A) (k : A -> M S B) s b s' :
  bind m k s = (Ok b, s') ->
  exists a s1, m s = (Ok a, s1) /\ k a s1 = (Ok b, s').
Proof.
  unfold bind. destruct (m s) as [[a|e] s1]; [|done]. intros Hk. eauto.
Qed.

Lemma gets_inv {S A : Type} (f : S -> A) s r s' :
  gets f s = (r, s') -> r = Ok (f s) /\ s' = s.
Proof. by intros [= <- <-]. Qed.

Lemma modify_inv {S : Type} (f : S -> S) s r s' :
  modify f s = (r, s') -> r = Ok tt /\ s' = f s.
Proof. by intros [= <- <-]. Qed.

Lemma ret_inv {S A : Type} (a : A) (s : S) r s' :
  ret a s = (r, s') -> r = Ok a /\ s' = s.
Proof. by intros [= <- <-]. Qed.

Lemma assert_inv {S : Type} (c : bool) (s : S) u s' :
  assert c s = (Ok u, s') -> c = true /\ s' = s.
Proof. destruct c; simpl; [by intros [= <- <-]|done]. Qed.

Lemma raise_if_inv {S : Type} (c : bool) e (s : S) u s' :
  raise_if c e s = (Ok u, s') -> c = false /\ s' = s.
Proof. destruct c; simpl; [done|by intros [= <- <-]]. Qed.

Lemma dict_get_inv {S : Type} `{Countable K} {V : Type}
    (d : gmap K V) (k : K) (s : S) v s' :
  dict_get d k s = (Ok v, s') -> d !! k = Some v /\ s' = s.
Proof.
  unfold dict_get. destruct (d !! k); [by intros [= <- <-]|done].
Qed.

Lemma dict_get_Some {S : Type} `{Countable K} {V : Type}
    (d : gmap K V) (k : K) (s : S) v :
  d !! k = Some v -> dict_get d k s = (Ok v, s).
Proof. unfold dict_get. by intros ->. Qed.

Lemma zoom_inv {S T A : Type} (proj : S -> T) (upd : T -> S -> S)
    (m : M T A) s r s' :
  zoom proj upd m s = (r, s') ->
  exists t', m (proj s) = (r, t') /\ s' = upd t' s.
Proof.
  unfold zoom. destruct (m (proj s)) as [r1 t']. intros [= <- <-]. eauto.
Qed.

(** Decomposes a hypothesis that a computation returned normally into the
    facts its steps contribute. *)
Ltac minv H :=
  lazymatch type of H with
  | bind _ _ _ = (Ok _, _) =>
      let H1 := fresh "Hm" in
      let H2 := fresh "Hm" in
      apply bind_inv_Ok in H as (? & ? & H1 & H2); minv H1; minv H2
  | gets _ _ = (_, _) => apply gets_inv in H as [? ?]; simplify_eq
  | modify _ _ = (_, _) => apply modify_inv in H as [? ?]; simplify_eq
  | ret _ _ = (_, _) => apply ret_inv in H as [? ?]; simplify_eq
  | assert _ _ = (Ok _, _) => apply assert_inv in H as [H ?]; simplify_eq
  | raise_if _ _ _ = (Ok _, _) =>
      apply raise_if_inv in H as [H ?]; simplify_eq
  | dict_get _ _ _ = (Ok _, _) =>
      apply dict_get_inv in H as [H ?]; simplify_eq
  | raise _ _ = (Ok _, _) => discriminate H
  | _ => idtac
  end.

Lemma preserves_ret {S T A : Type} (f : S -> T) (a : A) : preserves f (ret a).
Proof. done. Qed.

Lemma preserves_raise {S T A : Type} (f : S -> T) e :
  preserves f (@raise S A e).
Proof. done. Qed.

Lemma preserves_gets {S T A : Type} (f : S -> T) (g : S -> A) :
  preserves f (gets g).
Proof. done. Qed.

Lemma preserves_assert {S T : Type} (f : S -> T) c : preserves f (assert c).
Proof. by destruct c. Qed.

Lemma preserves_raise_if {S T : Type} (f : S -> T) c e :
  preserves f (raise_if c e).
Proof. by destruct c. Qed.

Lemma preserves_dict_get {S T : Type} `{Countable K} {V : Type}
    (f : S -> T) (d : gmap K V) k :
  preserves f (dict_get d k).
Proof. intros s. unfold dict_get. by destruct (d !! k). Qed.

Lemma preserves_modify {S T : Type} (f : S -> T) (g : S -> S) :
  (forall s, f (g s) = f s) -> preserves f (modify g).
Proof. intros Hg s. apply Hg. Qed.

Lemma preserves_zoom {S T U A : Type} (f : S -> T) (proj : S -> U)
    (upd : U -> S -> S) (m : M U A) :
  (forall u s, f (upd u s) = f s) -> preserves f (zoom proj upd m).
Proof.
  intros Hupd s. unfold zoom. destruct (m (proj s)). simpl. apply Hupd.
Qed.

Lemma preserves_bind {S T A B : Type} (f : S -> T) (m : M S A)
    (k : A -> M S B) :
  preserves f m -> (forall a, preserves f (k a)) -> preserves f (bind m k).
Proof.
  intros Hm Hk s. unfold bind. specialize (Hm s).
  destruct (m s) as [[a|e] s1]; simpl in *; [|done].
  by rewrite Hk.
Qed.

Lemma preserves_try_except {S T A : Type} (f : S -> T) (body : M S A) e
    (handler : M S A) :
  preserves f body -> preserves f handler ->
  preserves f (try_except body e handler).
Proof.
  intros Hb Hh s. unfold try_except. specialize (Hb s).
  destruct (body s) as [[a|e'] s1]; simpl in *; [done|].
  destruct (decide (e' = e)); [|done]. by rewrite Hh.
Qed.

Ltac frame :=
  repeat first
    [ apply preserves_ret | apply preserves_raise | apply preserves_gets
    | apply preserves_assert | apply preserves_raise_if
    | apply preserves_dict_get
    | apply preserves_modify; intros; reflexivity
    | apply preserves_zoom; intros; reflexivity
    | apply preserves_try_except
    | apply preserves_bind; [|intros ?]
    | match goal with
      | |- preserves _ (match ?x with _ => _ end) => destruct x
      end ].

(** ** Legality checks *)

Section ParserFacts.
Context `{Torch}.
Implicit Types self m : DiscRNNG.

Lemma last_is_nt_true (history : list Action) :
  last_is_nt history = true <-> exists l, last history = Some (NTAction l).
Proof.
  unfold last_is_nt. split.
  - intros Hl%andb_true_iff. destruct Hl as [_ Hl].
    destruct (last history) as [[| |l]|]; eauto; done.
  - intros [l Hl]. rewrite Hl. simpl. rewrite andb_true_r.
    apply Nat.ltb_lt. destruct history; [done|]. simpl. lia.
Qed.

Lemma last_is_nt_snoc (history : list Action) (a : Action) :
  last_is_nt (history ++ [a]) = is_NTAction a.
Proof.
  unfold last_is_nt. rewrite last_snoc, length_app. simpl.
  replace (0 <? length history + 1)%nat with true; [done|].
  symmetry. apply Nat.ltb_lt. lia.
Qed.

Lemma length_zero_iff_nil {A : Type} (l : list A) :
  (length l =? 0)%nat = true <-> l = [].
Proof. rewrite Nat.eqb_eq. by destruct l. Qed.

Lemma length_pos_iff {A : Type} (l : list A) :
  (0 <? length l)%nat = true <-> l <> [].
Proof. rewrite Nat.ltb_lt. destruct l; simpl; split; (done || lia). Qed.

Lemma verify_push_nt_check self :
  verify_push_nt self = check (can_push_nt self) self.
Proof.
  unfold verify_push_nt, _verify_action, can_push_nt, can_act, check, bind,
    gets, raise_if, raise, ret.
  destruct (_started self); simpl; [|done].
  destruct (finished self); simpl; [done|].
  destruct (length (_buffer self) =? 0)%nat; simpl; [done|].
  by destruct (_num_open_nt self >=? MAX_OPEN_NT)%Z.
Qed.

Lemma verify_shift_check self :
  verify_shift self = check (can_shift self) self.
Proof.
  unfold verify_shift, _verify_action, can_shift, can_act, check, bind,
    gets, raise_if, raise, ret.
  destruct (_started self); simpl; [|done].
  destruct (finished self); simpl; [done|].
  destruct (length (_buffer self) =? 0)%nat; simpl; [done|].
  by destruct (_num_open_nt self =? 0)%Z.
Qed.

Lemma verify_reduce_check self :
  verify_reduce self = check (can_reduce self) self.
Proof.
  unfold verify_reduce, _verify_action, can_reduce, can_act, check, bind,
    gets, raise_if, raise, ret.
  destruct (_started self); simpl; [|done].
  destruct (finished self); simpl; [done|].
  destruct (last_is_nt (_history self)); simpl; [done|].
  by destruct ((_num_open_nt self <? 2)%Z && (0 <? length (_buffer self))%nat).
Qed.

Lemma verify_on_check action self :
  verify_on action self = check (can_do action self) self.
Proof.
  destruct action; simpl;
    auto using verify_shift_check, verify_reduce_check, verify_push_nt_check.
Qed.

Lemma check_Ok c self u self' :
  check c self = (Ok u, self') <-> c = true /\ self' = self.
Proof.
  unfold check. destruct c, u; split; try done; naive_solver.
Qed.

(** C3. In a started, unfinished state [verify_reduce] returns normally
    exactly when the last action of the history is no [NTAction] and
    either at least two nonterminals are open or the buffer is empty; in
    every other such state it raises [IllegalActionError].  The state is
    left as it was in both cases. *)
Theorem verify_reduce_legal_iff self :
  _started self = true -> finished self = false ->
  let legal :=
    ~ (exists l, last (_history self) = Some (NTAction l)) /\
    (2 <= _num_open_nt self \/ _buffer self = [])%Z in
  (verify_reduce self = (Ok tt, self) <-> legal) /\
  (~ legal -> verify_reduce self = (Raise IllegalActionError, self)).
Proof.
  intros Hs Hf legal.
  assert (can_reduce self = true <-> legal) as Hiff.
  { unfold can_reduce, can_act, legal. rewrite Hs, Hf. simpl.
    rewrite andb_true_iff, !negb_true_iff, andb_false_iff.
    rewrite <- not_true_iff_false, last_is_nt_true.
    rewrite Z.ltb_ge, <- not_true_iff_false, length_pos_iff.
    destruct (_buffer self); naive_solver. }
  rewrite verify_reduce_check. split.
  - rewrite <- Hiff. unfold check.
    destruct (can_reduce self); split; try done.
  - intros Hn. unfold check. destruct (can_reduce self); [|done].
    exfalso. apply Hn, Hiff. done.
Qed.

(** C7. In a started, unfinished state with no open nonterminal, [shift]
    raises [IllegalActionError] and returns the parser as it received it:
    the stack, the buffer, the history, the counter, the started flag and
    the three encoders are the same object state. *)
Theorem shift_without_open_nt_fails self :
  _started self = true -> finished self = false ->
  _num_open_nt self = 0%Z ->
  shift self = (Raise IllegalActionError, self).
Proof.
  intros Hs Hf Hn. unfold shift.
  apply bind_Raise. rewrite verify_shift_check.
  unfold check, can_shift. rewrite Hn. simpl.
  by rewrite andb_false_r.
Qed.

(** C9. When the words and the POS tags differ in number, or there is no
    word, [start] raises [ValueError] and returns the parser as it received
    it: nothing has been assigned or popped. *)
Theorem start_rejects_bad_input self (words : list Word)
    (pos_tags : list POSTag) :
  length words <> length pos_tags \/ length words = 0 ->
  start words pos_tags self = (Raise ValueError, self).
Proof.
  intros Hbad. unfold start.
  destruct (length words =? length pos_tags)%nat eqn:Hlen.
  - apply Nat.eqb_eq in Hlen. destruct Hbad as [|Hz]; [done|].
    simpl. unfold bind at 1. simpl.
    apply bind_Raise. by rewrite Hz.
  - by apply bind_Raise.
Qed.

Lemma _is_legal_preserves astr : preserves id (_is_legal astr).
Proof.
  unfold _is_legal, action_of_string.
  apply preserves_bind; [by destruct (from_string astr)|]. intros action.
  apply preserves_try_except; [|done].
  apply preserves_bind; [|done].
  intros s. by rewrite verify_on_check.
Qed.

Lemma illegal_among_preserves items : preserves id (illegal_among items).
Proof.
  induction items as [|[astr aid] rest IH]; simpl; [done|].
  apply preserves_bind; [apply _is_legal_preserves|]. intros legal.
  apply preserves_bind; [done|]. intros ids. done.
Qed.

Lemma _get_illegal_action_ids_preserves :
  preserves id _get_illegal_action_ids.
Proof.
  unfold _get_illegal_action_ids.
  apply preserves_bind; [done|]. intros a2i.
  apply preserves_bind; [apply illegal_among_preserves|].
  by intros [|].
Qed.

(** C10. On every state, each of [verify_push_nt], [verify_shift] and
    [verify_reduce] either returns normally or raises
    [IllegalActionError], and in both cases returns the parser as it
    received it; so do [_is_legal] on every action string and
    [_get_illegal_action_ids], which probe the checks. *)
Theorem verify_has_no_effect self :
  ((verify_push_nt self).2 = self /\
   (verify_shift self).2 = self /\
   (verify_reduce self).2 = self) /\
  (forall r, r ∈ [(verify_push_nt self).1; (verify_shift self).1;
                  (verify_reduce self).1] ->
             r = Ok tt \/ r = Raise IllegalActionError) /\
  (forall astr, (_is_legal astr self).2 = self) /\
  (_get_illegal_action_ids self).2 = self.
Proof.
  rewrite verify_push_nt_check, verify_shift_check, verify_reduce_check.
  repeat split.
  - intros r Hr. unfold check in Hr. simpl in Hr.
    repeat (apply elem_of_cons in Hr as [->|Hr]);
      [by destruct (can_push_nt self); auto
      |by destruct (can_shift self); auto
      |by destruct (can_reduce self); auto
      |by apply elem_of_nil in Hr].
  - intros astr. apply (_is_legal_preserves astr self).
  - apply (_get_illegal_action_ids_preserves self).
Qed.


(** ** The effect of the transitions *)

Lemma set_stack_id self : set_stack (_stack self) self = self.
Proof. by destruct self. Qed.

Lemma stack_pop_snoc self (pre : list StackElement) x :
  _stack self = pre ++ [x] -> stack_pop self = (Ok x, set_stack pre self).
Proof. unfold stack_pop. intros ->. by rewrite py_pop_snoc. Qed.

Lemma stack_pop_inv self x self' :
  stack_pop self = (Ok x, self') ->
  exists pre, _stack self = pre ++ [x] /\ self' = set_stack pre self.
Proof.
  unfold stack_pop. destruct (py_pop (_stack self)) as [[y rest]|] eqn:E;
    [|done].
  intros [= <- <-]. apply py_pop_Some in E. eauto.
Qed.

Lemma buffer_pop_inv self w self' :
  buffer_pop self = (Ok w, self') ->
  exists rest, _buffer self = rest ++ [w] /\ self' = set_buffer rest self.
Proof.
  unfold buffer_pop. destruct (py_pop (_buffer self)) as [[y rest]|] eqn:E;
    [|done].
  intros [= <- <-]. apply py_pop_Some in E. eauto.
Qed.

Lemma unstrip_fst (cs : list StackElement) :
  (rev (map strip (rev cs))).*1 = map subtree cs.
Proof.
  rewrite (map_rev strip), rev_involutive. induction cs as [|x cs IH]; [done|].
  simpl. by rewrite <- IH.
Qed.

Lemma unstrip_snd (cs : list StackElement) :
  (rev (map strip (rev cs))).*2 = map emb cs.
Proof.
  rewrite (map_rev strip), rev_involutive. induction cs as [|x cs IH]; [done|].
  simpl. by rewrite <- IH.
Qed.

(** Every stack is a prefix that is empty or ends with an open
    nonterminal, followed by closed elements. *)
Lemma stack_split (stack : list StackElement) :
  exists pre cs,
    stack = pre ++ cs /\ Forall (fun x => is_open_nt x = false) cs /\
    (pre = [] \/ exists x, last pre = Some x /\ is_open_nt x = true).
Proof.
  induction stack as [|x stack IH] using rev_ind.
  - exists [], []. auto.
  - destruct (is_open_nt x) eqn:Hx.
    + exists (stack ++ [x]), []. rewrite app_nil_r, last_snoc.
      split; [done|]. split; [constructor|]. eauto.
    + destruct IH as (pre & cs & -> & Hcs & Hpre).
      exists pre, (cs ++ [x]). rewrite app_assoc. split; [done|].
      split; [|done]. apply Forall_app. auto.
Qed.

(** The loop of [_reduce] pops exactly the closed elements above the
    topmost open nonterminal and stops on its exit test. *)
Lemma _reduce_loop_spec fuel children self (pre cs : list StackElement) :
  _stack self = pre ++ cs ->
  Forall (fun x => is_open_nt x = false) cs ->
  (pre = [] \/ exists x, last pre = Some x /\ is_open_nt x = true) ->
  length cs <= fuel ->
  _reduce_loop fuel children self =
    (Ok (children ++ map strip (rev cs)), set_stack pre self).
Proof.
  revert fuel children self.
  induction cs as [|x cs IH] using rev_ind; intros fuel children self Hst Hcs Hpre Hf.
  - rewrite app_nil_r in Hst. simpl. rewrite app_nil_r. subst pre.
    rewrite set_stack_id. destruct fuel as [|fuel]; [done|]. simpl.
    unfold bind, gets. simpl.
    destruct Hpre as [->|(x & -> & ->)]; [done|].
    simpl. by rewrite andb_false_r.
  - rewrite length_app in Hf. simpl in Hf.
    destruct fuel as [|fuel]; [lia|]. simpl.
    apply Forall_app in Hcs as [Hcs Hx]. rewrite Forall_singleton in Hx.
    unfold bind at 1, gets. simpl. rewrite Hst, app_assoc, last_snoc, Hx.
    rewrite length_app. simpl.
    replace (0 <? length (pre ++ cs) + 1)%nat with true
      by (symmetry; apply Nat.ltb_lt; lia).
    simpl. erewrite bind_Ok; [|apply stack_pop_snoc; by rewrite Hst, app_assoc].
    rewrite (IH fuel _ _); simpl; [|done|done|done|lia].
    rewrite rev_app_distr. simpl. by rewrite <- app_assoc.
Qed.

Lemma _reduce_iff self self' :
  _reduce self = (Ok tt, self') <->
  exists pre o cs label kids,
    _stack self = pre ++ [o] ++ cs /\ cs <> [] /\
    Forall (fun x => is_open_nt x = false) cs /\
    is_open_nt o = true /\ subtree o = STree label kids /\
    (1 <= _num_open_nt self)%Z /\
    self' = set_num_open_nt (_num_open_nt self - 1)%Z
              (set_stack (pre ++ [composed (layers self) o label kids cs])
                 self).
Proof.
  unfold _reduce. split.
  - intros Hr.
    destruct (stack_split (_stack self)) as (pre0 & cs & Hst & Hcs & Hpre).
    apply bind_inv_Ok in Hr as (stack0 & s1 & Hg & Hr). minv Hg.
    erewrite bind_Ok in Hr;
      [|apply (_reduce_loop_spec _ _ _ pre0 cs); try done;
        rewrite Hst, length_app; lia].
    apply bind_inv_Ok in Hr as (u1 & s1 & Ha1 & Hr).
    apply assert_inv in Ha1 as [Hne ->]. simpl in Hne, Hr.
    rewrite length_map, length_rev in Hne. apply length_pos_iff in Hne.
    apply bind_inv_Ok in Hr as (stack & s1 & Hg & Hr). minv Hg.
    apply bind_inv_Ok in Hr as (u2 & s1 & Ha2 & Hr).
    apply assert_inv in Ha2 as [Hne0 ->]. simpl in Hne0.
    apply length_pos_iff in Hne0.
    destruct Hpre as [->|(o & Hlast & Ho)]; [done|].
    apply last_Some in Hlast as [pre ->].
    apply bind_inv_Ok in Hr as (o' & s1 & Hpop & Hr).
    apply stack_pop_inv in Hpop as (pre' & Hpre' & ->). simpl in Hpre'.
    apply app_inj_tail in Hpre' as [<- <-].
    destruct (subtree o) as [w|label kids] eqn:Hsub; [done|].
    apply bind_inv_Ok in Hr as (net & s1 & Hg & Hr). minv Hg.
    apply bind_inv_Ok in Hr as (u3 & s1 & Happ & Hr).
    unfold stack_append in Happ. minv Happ.
    apply bind_inv_Ok in Hr as (u4 & s1 & Hmod & Hr). minv Hmod.
    apply bind_inv_Ok in Hr as (n & s1 & Hg & Hr). minv Hg.
    apply assert_inv in Hr as [Hn ->]. simpl in *.
    exists pre, o, cs, label, kids. rewrite <- app_assoc in Hst.
    repeat split; try done.
    + apply Z.geb_le in Hn. lia.
    + unfold composed. by rewrite unstrip_fst, unstrip_snd.
  - intros (pre & o & cs & label & kids & Hst & Hne & Hcs & Ho & Hsub & Hn & ->).
    unfold bind at 1, gets. simpl.
    erewrite bind_Ok;
      [|apply (_reduce_loop_spec _ _ _ (pre ++ [o]) cs);
        [by rewrite Hst, <- app_assoc|done|rewrite last_snoc; eauto
        |rewrite Hst, !length_app; lia]].
    simpl. rewrite length_map, length_rev.
    replace (0 <? length cs)%nat with true
      by (symmetry; by apply length_pos_iff).
    simpl. unfold bind at 1, gets. simpl. unfold bind at 1, gets. simpl.
    rewrite length_app. simpl.
    replace (0 <? length pre + 1)%nat with true
      by (symmetry; apply Nat.ltb_lt; lia).
    simpl. unfold bind at 1. simpl.
    erewrite bind_Ok; [|by apply stack_pop_snoc]. rewrite Hsub.
    unfold bind, gets, stack_append, modify, assert. simpl.
    replace (_num_open_nt self - 1 >=? 0)%Z with true
      by (symmetry; apply Z.geb_le; lia).
    simpl. unfold ret. f_equal. unfold composed.
    by rewrite unstrip_fst, unstrip_snd.
Qed.

Ltac munfold :=
  unfold bind, gets, modify, ret, raise, assert, raise_if, dict_get,
    stack_append, on_stack_encoder, on_buffer_encoder, on_history_encoder,
    zoom; simpl.

Lemma DiscRNNG_eq (a b : DiscRNNG) :
  word2id a = word2id b -> pos2id a = pos2id b -> nt2id a = nt2id b ->
  actionstr2id a = actionstr2id b -> layers a = layers b ->
  _stack a = _stack b -> _buffer a = _buffer b -> _history a = _history b ->
  _num_open_nt a = _num_open_nt b -> _started a = _started b ->
  stack_encoder a = stack_encoder b -> buffer_encoder a = buffer_encoder b ->
  history_encoder a = history_encoder b -> _word_emb a = _word_emb b ->
  _nt_emb a = _nt_emb b -> _action_emb a = _action_emb b ->
  a = b.
Proof. destruct a, b. simpl. by intros -> -> -> -> -> -> -> -> -> -> -> -> -> -> -> ->. Qed.

(** Reads the attributes of a parser through the assignments made to
    it. *)
Ltac psimpl :=
  cbn [word2id pos2id nt2id actionstr2id layers _stack _buffer _history
       _num_open_nt _started stack_encoder buffer_encoder history_encoder
       _word_emb _nt_emb _action_emb] in *.

(** Replaces an assignment to a parser given attribute by attribute with
    the parser it yields, given the same way.  Used after every step, so
    that assignments never pile up. *)
Ltac flat :=
  unfold set_stack, set_buffer, set_history, set_num_open_nt, set_started,
    set_stack_encoder, set_buffer_encoder, set_history_encoder,
    set_word_emb, set_nt_emb, set_action_emb in *;
  psimpl.

(** Two parsers are equal when their attributes are, compared one at a
    time. *)
Ltac record_eq := apply DiscRNNG_eq; psimpl; reflexivity.

(** Runs a computation forward, using the facts at hand for the lookups
    and the encoder calls it makes. *)
Ltac mrun :=
  munfold;
  repeat (progress
            (simpl; unfold ret, raise;
             try match goal with
                 | Hx : ?x = _ |- context [?x] => rewrite Hx
                 end)).

Lemma _append_history_iff action self self' :
  _append_history action self = (Ok tt, self') <->
  exists aid t st e',
    actionstr2id self !! action_str action = Some aid /\
    _action_emb self = Some t /\
    push (t aid) (history_encoder self) = (Ok st, e') /\
    self' = set_history_encoder e'
              (set_history (_history self ++ [action]) self).
Proof.
  unfold _append_history. split.
  - intros Hr.
    apply bind_inv_Ok in Hr as (u & s1 & Hmod & Hr). minv Hmod.
    apply bind_inv_Ok in Hr as (a2i & s1 & Hg & Hr). minv Hg.
    apply bind_inv_Ok in Hr as (aid & s1 & Hd & Hr).
    apply dict_get_inv in Hd as [Hd ->]. simpl in Hd.
    apply bind_inv_Ok in Hr as (ae & s1 & Hg & Hr). minv Hg. simpl in Hr.
    destruct (_action_emb self) as [t|] eqn:Ht; [|done].
    apply bind_inv_Ok in Hr as (st & s1 & Hz & Hr). minv Hr.
    apply zoom_inv in Hz as (e' & Hp & ->). simpl in Hp.
    exists aid, t, st, e'. done.
  - intros (aid & t & st & e' & Hd & Ht & Hp & ->).
    munfold. rewrite Hd. simpl. rewrite Ht. simpl. rewrite Hp. done.
Qed.

Lemma _push_nt_iff nonterm self self' :
  _push_nt nonterm self = (Ok tt, self') <->
  exists nid t st e',
    nt2id self !! nonterm = Some nid /\
    _nt_emb self = Some t /\
    push (t nid) (stack_encoder self) = (Ok st, e') /\
    self' = set_num_open_nt (_num_open_nt self + 1)%Z
              (set_stack_encoder e'
                 (set_stack
                    (_stack self ++
                       [mkStackElement (STree nonterm []) (t nid) true])
                    self)).
Proof.
  unfold _push_nt. split.
  - intros Hr.
    apply bind_inv_Ok in Hr as (n2i & s1 & Hg & Hr). minv Hg.
    apply bind_inv_Ok in Hr as (nid & s1 & Hd & Hr).
    apply dict_get_inv in Hd as [Hd ->].
    apply bind_inv_Ok in Hr as (ne & s1 & Hg & Hr). minv Hg.
    destruct (_nt_emb self) as [t|] eqn:Ht; [|done].
    apply bind_inv_Ok in Hr as (u & s1 & Happ & Hr).
    unfold stack_append in Happ. minv Happ.
    apply bind_inv_Ok in Hr as (st & s1 & Hz & Hr). minv Hr.
    apply zoom_inv in Hz as (e' & Hp & ->). simpl in Hp.
    exists nid, t, st, e'. done.
  - intros (nid & t & st & e' & Hd & Ht & Hp & ->).
    munfold. rewrite Hd. simpl. rewrite Ht. simpl. rewrite Hp. done.
Qed.

Lemma _shift_iff self self' :
  _shift self = (Ok tt, self') <->
  exists word rest wid v st be st' se,
    _buffer self = rest ++ [word] /\
    len (buffer_encoder self) <> 0 /\
    pop (buffer_encoder self) = (Ok st, be) /\
    word2id self !! word = Some wid /\
    _word_emb self !! wid = Some v /\
    push v (stack_encoder self) = (Ok st', se) /\
    self' = set_stack_encoder se
              (set_stack (_stack self ++ [mkStackElement (SWord word) v false])
                 (set_buffer_encoder be (set_buffer rest self))).
Proof.
  unfold _shift. split.
  - intros Hr.
    apply bind_inv_Ok in Hr as (buffer & s1 & Hg & Hr). minv Hg.
    apply bind_inv_Ok in Hr as (u1 & s1 & Ha & Hr).
    apply assert_inv in Ha as [_ ->].
    apply bind_inv_Ok in Hr as (enc & s1 & Hg & Hr). minv Hg.
    apply bind_inv_Ok in Hr as (u2 & s1 & Ha & Hr).
    apply assert_inv in Ha as [Hlen ->]. apply Nat.ltb_lt in Hlen.
    apply bind_inv_Ok in Hr as (word & s1 & Hb & Hr).
    apply buffer_pop_inv in Hb as (rest & Hbuf & ->).
    apply bind_inv_Ok in Hr as (st & s1 & Hz & Hr).
    apply zoom_inv in Hz as (be & Hpop & ->). simpl in Hpop.
    apply bind_inv_Ok in Hr as (w2i & s1 & Hg & Hr). minv Hg.
    apply bind_inv_Ok in Hr as (wid & s1 & Hd & Hr).
    apply dict_get_inv in Hd as [Hd ->]. simpl in Hd.
    apply bind_inv_Ok in Hr as (we & s1 & Hg & Hr). minv Hg.
    apply bind_inv_Ok in Hr as (v & s1 & Hd2 & Hr).
    apply dict_get_inv in Hd2 as [Hd2 ->]. simpl in Hd2.
    apply bind_inv_Ok in Hr as (u3 & s1 & Happ & Hr).
    unfold stack_append in Happ. minv Happ.
    apply bind_inv_Ok in Hr as (we' & s1 & Hg & Hr). minv Hg.
    apply bind_inv_Ok in Hr as (v' & s1 & Hd3 & Hr).
    apply dict_get_inv in Hd3 as [Hd3 ->]. simpl in Hd3.
    assert (v' = v) as -> by congruence.
    apply bind_inv_Ok in Hr as (st' & s1 & Hz & Hr). minv Hr.
    apply zoom_inv in Hz as (se & Hpush & ->). simpl in Hpush.
    exists word, rest, wid, v, st, be, st', se. repeat split; try done. lia.
  - intros (word & rest & wid & v & st & be & st' & se
            & Hbuf & Hlen & Hpop & Hw & Hv & Hpush & ->).
    munfold. rewrite Hbuf, length_app. simpl.
    replace (0 <? length rest + 1)%nat with true
      by (symmetry; apply Nat.ltb_lt; lia).
    simpl.
    replace (0 <? len (buffer_encoder self))%nat with true
      by (symmetry; apply Nat.ltb_lt; lia).
    simpl. unfold buffer_pop. rewrite Hbuf, py_pop_snoc. simpl.
    rewrite Hpop. simpl. rewrite Hw. simpl. rewrite Hv. simpl.
    unfold ret. rewrite Hv. simpl. rewrite Hpush. done.
Qed.

Lemma check_bind {A : Type} (c : bool) (k : unit -> M DiscRNNG A) self a
    self' :
  bind (fun s => check c s) k self = (Ok a, self') <->
  c = true /\ k tt self = (Ok a, self').
Proof.
  unfold bind, check. destruct c; split; try done; naive_solver.
Qed.

Lemma push_nt_iff nonterm self self' :
  push_nt nonterm self = (Ok tt, self') <->
  can_push_nt self = true /\
  exists self1,
    _push_nt nonterm self = (Ok tt, self1) /\
    _append_history (NTAction nonterm) self1 = (Ok tt, self').
Proof.
  unfold push_nt, bind at 1. rewrite verify_push_nt_check. unfold check.
  destruct (can_push_nt self); [|naive_solver].
  unfold bind. destruct (_push_nt nonterm self) as [[[]|e] s1];
    naive_solver.
Qed.

Lemma shift_iff self self' :
  shift self = (Ok tt, self') <->
  can_shift self = true /\
  exists self1,
    _shift self = (Ok tt, self1) /\
    _append_history ShiftAction self1 = (Ok tt, self').
Proof.
  unfold shift, bind at 1. rewrite verify_shift_check. unfold check.
  destruct (can_shift self); [|naive_solver].
  unfold bind. destruct (_shift self) as [[[]|e] s1]; naive_solver.
Qed.

Lemma reduce_iff self self' :
  reduce self = (Ok tt, self') <->
  can_reduce self = true /\
  exists self1,
    _reduce self = (Ok tt, self1) /\
    _append_history ReduceAction self1 = (Ok tt, self').
Proof.
  unfold reduce, bind at 1. rewrite verify_reduce_check. unfold check.
  destruct (can_reduce self); [|naive_solver].
  unfold bind. destruct (_reduce self) as [[[]|e] s1]; naive_solver.
Qed.

(** The code of the three transitions and the relation [step] agree. *)
Lemma execute_on_step action self self' :
  execute_on action self = (Ok tt, self') <-> step action self self'.
Proof.
  split.
  - destruct action as [| |nonterm]; simpl.
    + intros (Hc & s1 & Hs & Hh)%shift_iff.
      apply _shift_iff in Hs
        as (word & rest & wid & v & st & be & st' & se
            & Hbuf & Hlen & Hpop & Hw & Hv & Hpush & ->).
      apply _append_history_iff in Hh
        as (aid & ta & st'' & he & Ha & Hta & Hp & ->).
      simpl in Ha, Hta, Hp.
      apply (step_shift self word rest wid v st be st' se aid ta st'' he);
        assumption.
    + intros (Hc & s1 & Hs & Hh)%reduce_iff.
      apply _reduce_iff in Hs
        as (pre & o & cs & label & kids & Hst & Hne & Hcs & Ho & Hsub & Hn & ->).
      apply _append_history_iff in Hh
        as (aid & ta & st'' & he & Ha & Hta & Hp & ->).
      simpl in Ha, Hta, Hp.
      apply (step_reduce self pre o cs label kids aid ta st'' he); assumption.
    + intros (Hc & s1 & Hs & Hh)%push_nt_iff.
      apply _push_nt_iff in Hs as (nid & t & st & se & Hn & Ht & Hpush & ->).
      apply _append_history_iff in Hh
        as (aid & ta & st'' & he & Ha & Hta & Hp & ->).
      simpl in Ha, Hta, Hp.
      apply (step_push_nt self nonterm nid t st se aid ta st'' he);
        assumption.
  - intros Hstep. inversion Hstep; subst; simpl.
    + apply push_nt_iff. split; [done|]. eexists. split.
      * apply _push_nt_iff. exists nid, t, st, se. done.
      * apply _append_history_iff. exists aid, ta, st', he. done.
    + apply shift_iff. split; [done|]. eexists. split.
      * apply _shift_iff. exists word, rest, wid, v, st, be, st', se. done.
      * apply _append_history_iff. exists aid, ta, st'', he. done.
    + apply reduce_iff. split; [done|]. eexists. split.
      * apply _reduce_iff. exists pre, o, cs, label, kids. done.
      * apply _append_history_iff. exists aid, ta, st, he. done.
Qed.

(** ** start *)

Lemma set_buffer_encoder_id self :
  set_buffer_encoder (buffer_encoder self) (set_buffer (_buffer self) self)
  = self.
Proof. by destruct self. Qed.

Lemma start_fill_inv rwords self self' :
  start_fill rwords self = (Ok tt, self') ->
  Forall (resolves self) rwords /\
  exists be,
    pushed (length rwords) (buffer_encoder self) be /\
    self' = set_buffer_encoder be (set_buffer (_buffer self ++ rwords) self).
Proof.
  revert self. induction rwords as [|w rest IH]; intros self; simpl.
  - intros [= <-]. split; [constructor|]. eexists. split; [constructor|].
    by rewrite app_nil_r, set_buffer_encoder_id.
  - intros Hr.
    apply bind_inv_Ok in Hr as (u & s1 & Hmod & Hr). minv Hmod.
    apply bind_inv_Ok in Hr as (w2i & s1 & Hg & Hr). minv Hg.
    apply bind_inv_Ok in Hr as (wid & s1 & Hd & Hr).
    apply dict_get_inv in Hd as [Hd ->]. simpl in Hd.
    apply bind_inv_Ok in Hr as (we & s1 & Hg & Hr). minv Hg.
    apply bind_inv_Ok in Hr as (u2 & s1 & Ha & Hr).
    apply assert_inv in Ha as [_ ->].
    apply bind_inv_Ok in Hr as (v & s1 & Hd2 & Hr).
    apply dict_get_inv in Hd2 as [Hd2 ->]. simpl in Hd2.
    apply bind_inv_Ok in Hr as (st & s1 & Hz & Hr).
    apply zoom_inv in Hz as (e1 & Hp & ->). simpl in Hp.
    apply IH in Hr as (Hres & be & Hpushed & ->). simpl in *.
    split.
    + constructor; [by exists wid, v|]. exact Hres.
    + exists be. split; [by econstructor|].
      by rewrite <- app_assoc.
Qed.

Lemma push_ok (e : StackLSTM Vec LState) v :
  enc_wf e -> exists st e', push v e = (Ok st, e') /\ enc_wf e'.
Proof.
  intros Hwf. destruct (push_spec e v Hwf) as (prev & _ & Hp).
  eexists _, _. split; [exact Hp|]. eapply push_wf; eauto.
Qed.

Lemma start_fill_ok rwords self :
  Forall (resolves self) rwords -> enc_wf (buffer_encoder self) ->
  exists self', start_fill rwords self = (Ok tt, self').
Proof.
  revert self. induction rwords as [|w rest IH]; intros self Hres Hwf; simpl.
  - eexists. reflexivity.
  - apply Forall_cons in Hres as [(wid & v & Hw & Hv) Hres].
    destruct (push_ok (buffer_encoder self) v Hwf) as (st & e' & Hp & Hwf').
    edestruct (IH (set_buffer_encoder e'
                     (set_buffer (_buffer self ++ [w]) self)))
      as [self' Hfill]; [done|done|].
    exists self'. by mrun.
Qed.

Lemma lookup_all_iff (d : gmap string Z) keys self vs self' :
  lookup_all d keys self = (Ok vs, self') <->
  Forall2 (fun k v => d !! k = Some v) keys vs /\ self' = self.
Proof.
  revert vs. induction keys as [|k keys IH]; intros vs; simpl.
  - unfold ret. split.
    + intros [= <- <-]. split; [constructor|done].
    + intros [Hf ->]. by inversion Hf.
  - split.
    + intros Hr.
      apply bind_inv_Ok in Hr as (v & s1 & Hd & Hr).
      apply dict_get_inv in Hd as [Hd ->].
      apply bind_inv_Ok in Hr as (vs' & s1 & Hrec & Hr). minv Hr.
      apply IH in Hrec as [Hf ->]. split; [by constructor|done].
    + intros [Hf ->]. inversion Hf as [|k' v ks vs' Hd Hf']; subst.
      unfold bind, dict_get. rewrite Hd. simpl.
      assert (lookup_all d keys self = (Ok vs', self)) as -> by by apply IH.
      done.
Qed.

Lemma fold_insert_lookup (kvs : list (Z * Vec)) (d : gmap Z Vec) k :
  k ∈ kvs.*1 \/ is_Some (d !! k) ->
  is_Some (fold_left (fun d kv => <[kv.1 := kv.2]> d) kvs d !! k).
Proof.
  revert d. induction kvs as [|[k' v'] kvs IH]; intros d; simpl.
  - intros [Hin|Hs]; [by apply elem_of_nil in Hin|done].
  - intros Hk. apply IH.
    destruct (decide (k = k')) as [->|Hne].
    + right. rewrite lookup_insert_eq. eauto.
    + destruct Hk as [Hin|Hs].
      * apply elem_of_cons in Hin as [?|Hin]; [done|]. by left.
      * right. by rewrite lookup_insert_ne.
Qed.

Lemma dict_of_zip_lookup (keys : list Z) (values : list Vec) k :
  length keys <= length values -> k ∈ keys ->
  is_Some (dict_of_zip keys values !! k).
Proof.
  intros Hlen Hin. apply fold_insert_lookup. left.
  by rewrite fst_zip.
Qed.

Lemma _prepare_embeddings_iff words pos_tags self self' :
  _prepare_embeddings words pos_tags self = (Ok tt, self') <->
  length words = length pos_tags /\
  exists word_ids pos_ids,
    Forall2 (fun k v => word2id self !! k = Some v) words word_ids /\
    Forall2 (fun k v => pos2id self !! k = Some v) pos_tags pos_ids /\
    self' =
      set_action_emb (Some (action2encoder (layers self)))
        (set_nt_emb (Some (nt2encoder (layers self)))
           (set_word_emb
              (dict_of_zip word_ids
                 (zip_with (word2encoder (layers self)) word_ids pos_ids))
              self)).
Proof.
  unfold _prepare_embeddings. split.
  - intros Hr.
    apply bind_inv_Ok in Hr as (u & s1 & Ha & Hr).
    apply assert_inv in Ha as [Hlen ->]. apply Nat.eqb_eq in Hlen.
    apply bind_inv_Ok in Hr as (w2i & s1 & Hg & Hr). minv Hg.
    apply bind_inv_Ok in Hr as (wids & s1 & Hl & Hr).
    apply lookup_all_iff in Hl as [Hw ->].
    apply bind_inv_Ok in Hr as (p2i & s1 & Hg & Hr). minv Hg.
    apply bind_inv_Ok in Hr as (pids & s1 & Hl & Hr).
    apply lookup_all_iff in Hl as [Hp ->].
    apply bind_inv_Ok in Hr as (net & s1 & Hg & Hr). minv Hg.
    apply bind_inv_Ok in Hr as (u1 & s1 & Hmod & Hr). minv Hmod.
    apply bind_inv_Ok in Hr as (u2 & s1 & Hmod & Hr). minv Hmod.
    minv Hr. split; [done|]. exists wids, pids. done.
  - intros (Hlen & wids & pids & Hw & Hp & ->).
    unfold bind at 1. replace (length words =? length pos_tags)%nat with true
      by (symmetry; by apply Nat.eqb_eq).
    simpl. unfold bind at 1, gets.
    erewrite bind_Ok; [|by apply lookup_all_iff].
    unfold bind at 1, gets.
    erewrite bind_Ok; [|by apply lookup_all_iff].
    reflexivity.
Qed.

(** The parser a successful [start] returns. *)
Lemma start_inv words pos_tags self self' :
  start words pos_tags self = (Ok tt, self') ->
  length words = length pos_tags /\ words <> [] /\
  exists se0 se st_s be0 be1 be st_b he0 he st_h word_ids pos_ids,
    clear (stack_encoder self) = (Ok tt, se0) /\
    clear (buffer_encoder self) = (Ok tt, be0) /\
    clear (history_encoder self) = (Ok tt, he0) /\
    push (stack_guard (layers self)) se0 = (Ok st_s, se) /\
    push (buffer_guard (layers self)) be0 = (Ok st_b, be1) /\
    push (history_guard (layers self)) he0 = (Ok st_h, he) /\
    pushed (length words) be1 be /\
    Forall2 (fun k v => word2id self !! k = Some v) words word_ids /\
    Forall2 (fun k v => pos2id self !! k = Some v) pos_tags pos_ids /\
    Forall (resolves self') words /\
    self' =
      {| word2id := word2id self; pos2id := pos2id self;
         nt2id := nt2id self; actionstr2id := actionstr2id self;
         layers := layers self;
         _stack := []; _buffer := rev words; _history := [];
         _num_open_nt := 0; _started := true;
         stack_encoder := se; buffer_encoder := be; history_encoder := he;
         _word_emb :=
           dict_of_zip word_ids
             (zip_with (word2encoder (layers self)) word_ids pos_ids);
         _nt_emb := Some (nt2encoder (layers self));
         _action_emb := Some (action2encoder (layers self)) |}.
Proof.
  unfold start. intros Hr.
  apply bind_inv_Ok in Hr as (u1 & s1 & Hc & Hr).
  apply raise_if_inv in Hc as [Hlen ->].
  apply negb_false_iff, Nat.eqb_eq in Hlen.
  apply bind_inv_Ok in Hr as (u2 & s1 & Hc & Hr).
  apply raise_if_inv in Hc as [Hne ->].
  assert (words <> []) as Hwords.
  { intros ->. done. }
  do 5 (apply bind_inv_Ok in Hr as (? & s1 & Hmod & Hr); minv Hmod; flat).
  unfold on_stack_encoder, on_buffer_encoder, on_history_encoder in Hr.
  apply bind_inv_Ok in Hr as ([] & s1 & Hz & Hr).
  apply zoom_inv in Hz as (se0 & Hcs & ->). flat.
  apply bind_inv_Ok in Hr as ([] & s1 & Hz & Hr).
  apply zoom_inv in Hz as (be0 & Hcb & ->). flat.
  apply bind_inv_Ok in Hr as ([] & s1 & Hz & Hr).
  apply zoom_inv in Hz as (he0 & Hch & ->). flat.
  apply bind_inv_Ok in Hr as (net & s1 & Hg & Hr). minv Hg. flat.
  apply bind_inv_Ok in Hr as (st_s & s1 & Hz & Hr).
  apply zoom_inv in Hz as (se & Hps & ->). flat.
  apply bind_inv_Ok in Hr as (st_b & s1 & Hz & Hr).
  apply zoom_inv in Hz as (be1 & Hpb & ->). flat.
  apply bind_inv_Ok in Hr as (st_h & s1 & Hz & Hr).
  apply zoom_inv in Hz as (he & Hph & ->). flat.
  apply bind_inv_Ok in Hr as ([] & s1 & Hprep & Hr).
  apply _prepare_embeddings_iff in Hprep as (_ & wids & pids & Hw & Hp & ->).
  flat.
  apply bind_inv_Ok in Hr as ([] & s1 & Hfill & Hr). minv Hr.
  apply start_fill_inv in Hfill as (Hres & be & Hpushed & ->).
  flat. rewrite length_rev in Hpushed.
  split; [done|]. split; [done|].
  exists se0, se, st_s, be0, be1, be, st_b, he0, he, st_h, wids, pids.
  split_and!; try assumption; [|reflexivity].
  apply Forall_rev in Hres. rewrite rev_involutive in Hres.
  eapply Forall_impl; [exact Hres|]. intros w (wid & v & Hwid & Hv).
  exists wid, v. psimpl. done.
Qed.

(** ** The invariant of the symbolic state *)

Lemma count_open_app (s1 s2 : list StackElement) :
  count_open (s1 ++ s2) = (count_open s1 + count_open s2)%Z.
Proof. unfold count_open. rewrite filter_app, length_app. lia. Qed.

Lemma count_open_singleton (x : StackElement) :
  count_open [x] = if is_open_nt x then 1%Z else 0%Z.
Proof.
  unfold count_open. rewrite filter_cons, filter_nil.
  destruct (is_open_nt x); by case_decide.
Qed.

Lemma count_open_closed (cs : list StackElement) :
  Forall (fun x => is_open_nt x = false) cs -> count_open cs = 0%Z.
Proof.
  induction 1 as [|x cs Hx _ IH]; [done|].
  change (x :: cs) with ([x] ++ cs).
  rewrite count_open_app, count_open_singleton, Hx, IH. done.
Qed.

Lemma count_open_nonneg (stack : list StackElement) :
  (0 <= count_open stack)%Z.
Proof. unfold count_open. lia. Qed.

(** Each transition keeps the counter equal to the number of open
    nonterminals on the stack, from any state where they are equal. *)
Lemma step_count action m m' :
  step action m m' ->
  _num_open_nt m = count_open (_stack m) ->
  _num_open_nt m' = count_open (_stack m').
Proof.
  intros Hstep Hn.
  inversion Hstep as
    [m_ nonterm nid t st se aid ta st' he Hc
    |m_ word rest wid v st be st' se aid ta st'' he Hc Hb
    |m_ pre o cs label kids aid ta st he Hc Hst Hne Hcs Ho Hsub Hpos];
    subst; simpl.
  - rewrite count_open_app, count_open_singleton. simpl. lia.
  - rewrite count_open_app, count_open_singleton. simpl. lia.
  - rewrite Hst in Hn.
    rewrite !count_open_app, !count_open_singleton, Ho in Hn.
    rewrite (count_open_closed cs) in Hn by done.
    rewrite count_open_app, count_open_singleton. simpl. lia.
Qed.

Lemma start_count words pos_tags m0 m :
  start words pos_tags m0 = (Ok tt, m) ->
  _num_open_nt m = count_open (_stack m).
Proof.
  intros (_ & _ & Hm)%start_inv.
  destruct Hm as (? & ? & ? & ? & ? & ? & ? & ? & ? & ? & ? & ? & Hm).
  destruct Hm as (_ & _ & _ & _ & _ & _ & _ & _ & _ & _ & ->). done.
Qed.

Lemma head_snoc {A : Type} (l : list A) (x : A) :
  head (l ++ [x]) = match head l with Some y => Some y | None => Some x end.
Proof. by destruct l. Qed.

Lemma finished_false_inv m :
  finished m = false ->
  length (_stack m) <> 1 \/
  (exists b, head (_stack m) = Some b /\ is_open_nt b = true) \/
  _buffer m <> [].
Proof.
  unfold finished. intros Hf.
  destruct (length (_stack m) =? 1)%nat eqn:Hlen;
    [|left; by apply Nat.eqb_neq].
  destruct (head (_stack m)) as [b|] eqn:Hb.
  - destruct (is_open_nt b) eqn:Ho; [right; left; eauto|].
    simpl in Hf. right. right. intros Hnil. by rewrite Hnil in Hf.
  - apply head_None in Hb. rewrite Hb in Hlen. done.
Qed.

Lemma can_act_inv m :
  can_act m = true -> _started m = true /\ finished m = false.
Proof.
  unfold can_act. intros [? ?%negb_true_iff]%andb_true_iff. done.
Qed.

Lemma step_sym_inv action m m' : step action m m' -> sym_inv m -> sym_inv m'.
Proof.
  intros Hstep [Hs Hn Hcap Htree Htop Hbot Hbuf].
  pose proof (step_count _ _ _ Hstep Hn) as Hn'.
  inversion Hstep as
    [m_ nonterm nid t st se aid ta st' he Hc
    |m_ word rest wid v st be st' se aid ta st'' he Hc Hb
    |m_ pre o cs label kids aid ta st he Hc Hst Hne Hcs Ho Hsub Hpos];
    subst; rewrite <- ?H0 in *.
  - (* NT *)
    apply andb_true_iff in Hc as [Hc Hmax].
    apply andb_true_iff in Hc as [Hc Hbne].
    apply can_act_inv in Hc as [_ Hfin].
    apply negb_true_iff in Hmax, Hbne.
    split; simpl; try done.
    + unfold MAX_OPEN_NT in *.
      destruct (Z.geb_spec (_num_open_nt m) 100); [done|]. lia.
    + apply Forall_app. split; [done|]. by constructor.
    + unfold top_matches_history. simpl. rewrite !last_snoc. eauto.
    + intros _ b. simpl. rewrite head_snoc.
      destruct (head (_stack m)) as [y|] eqn:Hy.
      * intros [= <-]. by apply Hbot.
      * by intros [= <-].
    + intros _. intros Hnil. by rewrite Hnil in Hbne.
  - (* SHIFT *)
    apply andb_true_iff in Hc as [Hc Hnz].
    apply andb_true_iff in Hc as [Hc Hbne].
    apply can_act_inv in Hc as [_ Hfin].
    apply negb_true_iff in Hnz. apply Z.eqb_neq in Hnz.
    split; simpl; try done.
    + apply Forall_app. split; [done|]. by constructor.
    + unfold top_matches_history. simpl. rewrite !last_snoc. eauto.
    + intros _ b. simpl. rewrite head_snoc.
      destruct (head (_stack m)) as [y|] eqn:Hy.
      * intros [= <-]. by apply Hbot.
      * apply head_None in Hy. rewrite Hy in Hn. done.
    + rewrite last_is_nt_snoc. simpl. intros [?|Hnil]; [done|].
      by destruct (_history m).
  - (* REDUCE *)
    apply andb_true_iff in Hc as [Hc Hout].
    apply andb_true_iff in Hc as [Hc Hlast].
    apply can_act_inv in Hc as [_ Hfin].
    apply negb_true_iff in Hout.
    split; simpl; try done.
    + lia.
    + rewrite Hst in Htree. apply Forall_app in Htree as [Hpre _].
      apply Forall_app. split; [done|]. by constructor.
    + unfold top_matches_history. simpl. rewrite !last_snoc. eauto.
    + intros Hfin' b. simpl. rewrite head_snoc.
      destruct (head pre) as [y|] eqn:Hy.
      * intros [= <-]. apply (Hbot Hfin). rewrite Hst.
        destruct pre; [done|]. simpl in *. done.
      * apply head_None in Hy. subst pre. intros [= <-]. exfalso.
        simpl in Hst. rewrite Hst in Hn.
        change (o :: cs) with ([o] ++ cs) in Hn.
        rewrite count_open_app, count_open_singleton, Ho in Hn.
        rewrite count_open_closed in Hn by done.
        rewrite Hn in Hout. simpl in Hout.
        apply Nat.ltb_ge in Hout.
        unfold finished in Hfin'. simpl in Hfin'.
        destruct (_buffer m); [done|]. simpl in Hout. lia.
    + rewrite last_is_nt_snoc. simpl. intros [?|Hnil]; [done|].
      by destruct (_history m).
Qed.

Lemma start_sym_inv words pos_tags m0 m :
  start words pos_tags m0 = (Ok tt, m) -> sym_inv m.
Proof.
  intros (_ & Hne & Hm)%start_inv.
  destruct Hm as (? & ? & ? & ? & ? & ? & ? & ? & ? & ? & ? & ? & Hm).
  destruct Hm as (_ & _ & _ & _ & _ & _ & _ & _ & _ & _ & ->).
  split; simpl; try done.
  intros _ Hnil. apply Hne.
  rewrite <- (rev_involutive words), Hnil. done.
Qed.

Lemma reachable_sym_inv m : reachable m -> sym_inv m.
Proof.
  induction 1 as [m0 words pos_tags m Hstart | m action m' _ IH Hex].
  - by eapply start_sym_inv.
  - apply execute_on_step in Hex. by eapply step_sym_inv.
Qed.

(** C4. In every state reached from a successful [start] by successfully
    applied actions, [_num_open_nt] is the number of stack elements that
    are open nonterminals, and it is not negative.  ([start_count] and
    [step_count] show that [start] establishes the equality and that each
    of the three transitions keeps it, from any state where it holds.) *)
Theorem num_open_nt_counts_open_elements m :
  reachable m ->
  _num_open_nt m = count_open (_stack m) /\ (0 <= _num_open_nt m)%Z.
Proof.
  intros Hr. assert (_num_open_nt m = count_open (_stack m)) as Heq.
  { induction Hr as [m0 words pos_tags m Hstart | m action m' _ IH Hex].
    - by eapply start_count.
    - apply execute_on_step in Hex. by eapply step_count. }
  split; [done|]. rewrite Heq. apply count_open_nonneg.
Qed.

(** A parser that has not finished has a legal action. *)
Lemma sym_inv_not_stuck m :
  sym_inv m -> finished m = false ->
  can_push_nt m = true \/ can_shift m = true \/ can_reduce m = true.
Proof.
  intros [Hs Hn Hcap Htree Htop Hbot Hbuf] Hfin.
  unfold can_push_nt, can_shift, can_reduce, can_act. rewrite Hs, Hfin.
  simpl.
  destruct (_buffer m) as [|w buffer] eqn:Hb; simpl.
  - right. right.
    destruct (last_is_nt (_history m)) eqn:Hl; [exfalso; by apply Hbuf; auto|].
    simpl. by rewrite andb_false_r.
  - destruct (Z.eqb_spec (_num_open_nt m) 0) as [Hz|Hnz].
    + left. rewrite Hz. done.
    + right. left. done.
Qed.

(** C2. In every state reached from a successful [start] (which needs as
    many POS tags as words, and at least one word) by successfully applied
    actions: while the parser has not finished, at least one of
    [verify_push_nt], [verify_shift] and [verify_reduce] returns normally;
    once it has finished, each of them raises [IllegalActionError]. *)
Theorem never_stuck_before_finished m :
  reachable m ->
  (finished m = false ->
   verify_push_nt m = (Ok tt, m) \/ verify_shift m = (Ok tt, m) \/
   verify_reduce m = (Ok tt, m)) /\
  (finished m = true ->
   verify_push_nt m = (Raise IllegalActionError, m) /\
   verify_shift m = (Raise IllegalActionError, m) /\
   verify_reduce m = (Raise IllegalActionError, m)).
Proof.
  intros Hinv%reachable_sym_inv.
  rewrite verify_push_nt_check, verify_shift_check, verify_reduce_check.
  unfold check. split; intros Hfin.
  - destruct (sym_inv_not_stuck m Hinv Hfin) as [->|[->| ->]]; auto.
  - unfold can_push_nt, can_shift, can_reduce, can_act. rewrite Hfin.
    by rewrite andb_false_r.
Qed.

(** ** Actions that pass their check run to the end *)

Lemma push_len (e : StackLSTM Vec LState) v st e' :
  push v e = (Ok st, e') -> len e' = S (len e).
Proof.
  unfold push, forward_enc, len.
  destruct (last (_states_hist e)) as [prev|]; [|done].
  destruct (lstm e v prev). intros [= <- <-]. simpl.
  rewrite length_app. simpl. lia.
Qed.

Lemma pushed_wf n (e e' : StackLSTM Vec LState) :
  pushed n e e' -> enc_wf e -> enc_wf e' /\ len e' = len e + n.
Proof.
  induction 1 as [e|n e v st e1 e' Hp _ IH]; intros Hwf.
  - split; [done|lia].
  - destruct IH as [Hwf' Hlen]; [by eapply push_wf|].
    split; [done|]. apply push_len in Hp. lia.
Qed.

Lemma clear_wf (e e0 : StackLSTM Vec LState) :
  enc_wf e -> clear e = (Ok tt, e0) -> enc_wf e0 /\ len e0 = 0.
Proof.
  unfold clear. intros Hwf. rewrite pop_all_wf by done.
  intros [= <-]. unfold enc_wf, len in *. simpl.
  destruct (_states_hist e) as [|s sts]; [done|]. by destruct sts.
Qed.

Lemma clear_ok (e : StackLSTM Vec LState) :
  enc_wf e -> exists e0, clear e = (Ok tt, e0).
Proof. intros Hwf. unfold clear. rewrite pop_all_wf by done. eauto. Qed.

Lemma top_is_Some (e : StackLSTM Vec LState) :
  len e <> 0 -> is_Some (top e).
Proof.
  unfold len, top. destruct (last (_outputs_hist e)) eqn:E; [eauto|].
  apply last_None in E. by rewrite E.
Qed.

Lemma start_enc_inv words pos_tags m0 m :
  enc_wf (stack_encoder m0) -> enc_wf (buffer_encoder m0) ->
  enc_wf (history_encoder m0) ->
  start words pos_tags m0 = (Ok tt, m) -> enc_inv m.
Proof.
  intros Hws Hwb Hwh (_ & _ & Hm)%start_inv.
  destruct Hm as (se0 & se & st_s & be0 & be1 & be & st_b & he0 & he & st_h
                  & wids & pids & Hm).
  destruct Hm as (Hcs & Hcb & Hch & Hps & Hpb & Hph & Hpushed & _ & _
                  & Hres & Hm).
  apply clear_wf in Hcs as [Hws0 Hls0]; [|done].
  apply clear_wf in Hcb as [Hwb0 Hlb0]; [|done].
  apply clear_wf in Hch as [Hwh0 Hlh0]; [|done].
  pose proof (push_wf _ _ _ _ Hws0 Hps) as Hws1.
  pose proof (push_wf _ _ _ _ Hwb0 Hpb) as Hwb1.
  pose proof (push_wf _ _ _ _ Hwh0 Hph) as Hwh1.
  apply push_len in Hps, Hpb, Hph.
  apply pushed_wf in Hpushed as [Hwb2 Hlb2]; [|done].
  rewrite Hm in Hres |- *.
  split; simpl; try done; try (split; [done|lia]); eauto.
  - split; [done|]. rewrite length_rev. lia.
  - by apply Forall_rev.
Qed.

Lemma step_enc_inv action m m' : step action m m' -> enc_inv m -> enc_inv m'.
Proof.
  intros Hstep [[Hws Hls] [Hwh Hlh] [Hwb Hlb] Hres Hnt Hact].
  inversion Hstep as
    [m_ nonterm nid t st se aid ta st' he Hc Hnid Ht Hps Haid Hta Hph
    |m_ word rest wid v st be st' se aid ta st'' he Hc Hb Hlen Hpop Hwid Hv
       Hps Haid Hta Hph
    |m_ pre o cs label kids aid ta st he Hc Hst Hne Hcs Ho Hsub Hpos Haid
       Hta Hph];
    subst.
  - pose proof (push_wf _ _ _ _ Hws Hps). pose proof (push_wf _ _ _ _ Hwh Hph).
    apply push_len in Hps, Hph.
    split; simpl; try done; split; (done || lia).
  - pose proof (push_wf _ _ _ _ Hws Hps). pose proof (push_wf _ _ _ _ Hwh Hph).
    pose proof (pop_wf _ _ _ Hwb Hpop).
    apply push_len in Hps, Hph. apply pop_len in Hpop.
    rewrite Hb in Hlb, Hres. rewrite length_app in Hlb. simpl in Hlb.
    apply Forall_app in Hres as [Hres _].
    split; simpl; try done; try (split; (done || lia)).
  - pose proof (push_wf _ _ _ _ Hwh Hph). apply push_len in Hph.
    split; simpl; try done; try (split; (done || lia)).
Qed.

(** An action that passes its check and is known to the parser is
    executed to the end. *)
Lemma step_progress action m :
  sym_inv m -> enc_inv m -> can_do action m = true -> known m action ->
  exists m', step action m m'.
Proof.
  intros [Hs Hn Hcap Htree Htop Hbot Hbuf]
         [[Hws Hls] [Hwh Hlh] [Hwb Hlb] Hres [t Hnt] [ta Hact]]
         Hc [[aid Haid] Hlabel].
  destruct action as [| |nonterm]; simpl in Hc.
  - (* SHIFT *)
    pose proof Hc as Hc'.
    apply andb_true_iff in Hc' as [Hc' _].
    apply andb_true_iff in Hc' as [_ Hbne]. apply negb_true_iff in Hbne.
    destruct (snoc_case (_buffer m)) as [Hnil|(rest & word & Hb)];
      [by rewrite Hnil in Hbne|].
    rewrite Hb in Hres. apply Forall_app in Hres as [_ Hw].
    rewrite Forall_singleton in Hw. destruct Hw as (wid & v & Hwid & Hv).
    destruct (pop_nonempty (buffer_encoder m) Hwb)
      as (st & sts & o & outs & _ & _ & _ & Hpop); [lia|].
    destruct (push_ok (stack_encoder m) v Hws) as (st' & se & Hps & _).
    destruct (push_ok (history_encoder m) (ta aid) Hwh) as (st'' & he & Hph & _).
    eexists. eapply step_shift; eauto. lia.
  - (* REDUCE *)
    pose proof Hc as Hc'.
    apply andb_true_iff in Hc' as [Hc' Hout].
    apply andb_true_iff in Hc' as [Hc' Hlast].
    apply can_act_inv in Hc' as [_ Hfin].
    apply negb_true_iff in Hout, Hlast.
    destruct (stack_split (_stack m)) as (pre0 & cs & Hst & Hcs & Hpre).
    assert (cs <> []) as Hne.
    { intros ->. rewrite app_nil_r in Hst. unfold top_matches_history in Htop.
      destruct Hpre as [->|(x & Hx & Hox)].
      - rewrite Hst in Hn. change (count_open []) with 0%Z in Hn.
        rewrite Hn in Hout. simpl in Hout. apply Nat.ltb_ge in Hout.
        assert (_history m = []) as Hh.
        { destruct (last (_history m)) as [a|] eqn:Hl; [|by apply last_None].
          destruct Htop as (y & Hy & _). by rewrite Hst in Hy. }
        specialize (Hbuf (or_intror Hh)). destruct (_buffer m); [done|].
        simpl in Hout. lia.
      - destruct (last (_history m)) as [a|] eqn:Hl.
        + destruct Htop as (y & Hy & Hya). rewrite Hst, Hx in Hy.
          injection Hy as <-. rewrite Hox in Hya.
          unfold last_is_nt in Hlast. rewrite Hl, <- Hya in Hlast.
          rewrite andb_true_r in Hlast. apply Nat.ltb_ge in Hlast.
          apply last_Some in Hl as [h' Hh]. rewrite Hh, length_app in Hlast.
          simpl in Hlast. lia.
        + rewrite Htop in Hst. subst pre0. done. }
    destruct Hpre as [->|(o & Hx & Ho)].
    { exfalso. simpl in Hst. destruct cs as [|b cs']; [done|].
      specialize (Hbot Hfin b). rewrite Hst in Hbot.
      specialize (Hbot eq_refl). apply Forall_cons in Hcs as [Hb _].
      congruence. }
    apply last_Some in Hx as [pre ->].
    rewrite Hst in Htree. apply Forall_app in Htree as [Htree _].
    apply Forall_app in Htree as [_ Htree]. rewrite Forall_singleton in Htree.
    specialize (Htree Ho). destruct (subtree o) as [w|label kids] eqn:Hsub;
      [done|].
    destruct (push_ok (history_encoder m) (ta aid) Hwh) as (st'' & he & Hph & _).
    eexists. eapply step_reduce; eauto.
    + by rewrite Hst, <- app_assoc.
    + rewrite Hn, Hst, !count_open_app, count_open_singleton, Ho.
      pose proof (count_open_nonneg pre). pose proof (count_open_nonneg cs).
      lia.
  - (* NT *)
    destruct Hlabel as [nid Hnid].
    destruct (push_ok (stack_encoder m) (t nid) Hws) as (st' & se & Hps & _).
    destruct (push_ok (history_encoder m) (ta aid) Hwh) as (st'' & he & Hph & _).
    eexists. eapply step_push_nt; eauto.
Qed.

(** An action that fails its check leaves the parser as it was. *)
Lemma execute_on_illegal action m :
  can_do action m = false ->
  execute_on action m = (Raise IllegalActionError, m).
Proof.
  intros Hc. destruct action; simpl in *.
  - unfold shift. apply bind_Raise. rewrite verify_shift_check.
    unfold check. by rewrite Hc.
  - unfold reduce. apply bind_Raise. rewrite verify_reduce_check.
    unfold check. by rewrite Hc.
  - unfold push_nt. apply bind_Raise. rewrite verify_push_nt_check.
    unfold check. by rewrite Hc.
Qed.

(** ** Action strings *)

Lemma strip_close_Some (s l : string) :
  strip_close s = Some l -> s = l +:+ ")".
Proof.
  revert l. induction s as [|c s IH]; intros l; simpl; [done|].
  destruct s as [|c' s'].
  - case_decide; [|done]. intros [= <-]. by subst c.
  - destruct (strip_close (String c' s')) as [l'|] eqn:E; [|done].
    simpl. intros [= <-]. exact (f_equal (String c) (IH _ eq_refl)).
Qed.

Lemma from_string_str (s : string) (action : Action) :
  from_string s = Some action -> action_str action = s.
Proof.
  unfold from_string.
  destruct (decide (s = "SHIFT")) as [->|_]; [by intros [= <-]|].
  destruct (decide (s = "REDUCE")) as [->|_]; [by intros [= <-]|].
  intros Hfs.
  repeat match type of Hfs with
         | context [match ?x with _ => _ end] =>
             is_var x; destruct x; try discriminate Hfs
         end.
  match type of Hfs with
  | context [strip_close ?r] =>
      destruct (strip_close r) as [l|] eqn:E; [|done]
  end.
  revert Hfs.
  intros [= <-]. simpl. apply strip_close_Some in E. by rewrite E.
Qed.

(** ** Scoring *)

Lemma enc_wf_b_true (e : StackLSTM Vec LState) : enc_wf_b e = true -> enc_wf e.
Proof. unfold enc_wf_b, enc_wf. by intros ?%Nat.eqb_eq. Qed.

Lemma known_b_true m action : known_b m action = true -> known m action.
Proof.
  unfold known_b, known. intros [Ha Hl]%andb_true_iff.
  apply bool_decide_eq_true in Ha. split; [done|].
  destruct action; try done. by apply bool_decide_eq_true in Hl.
Qed.

Lemma vocab_ok_parses m : vocab_ok m = true -> vocab_parses m.
Proof.
  unfold vocab_ok, vocab_parses. intros Hall astr aid Hlook.
  rewrite forallb_forall in Hall.
  specialize (Hall (astr, aid)). simpl in Hall.
  destruct (from_string astr) as [action|].
  - exists action. split; [done|]. apply known_b_true, Hall.
    apply list_elem_of_In. by apply elem_of_map_to_list.
  - discriminate Hall. apply list_elem_of_In. by apply elem_of_map_to_list.
Qed.

Lemma _is_legal_spec astr action m :
  from_string astr = Some action ->
  _is_legal astr m = (Ok (can_do action m), m).
Proof.
  intros Hparse. unfold _is_legal, action_of_string. rewrite Hparse.
  unfold bind at 1, ret. unfold try_except, bind.
  rewrite verify_on_check. unfold check.
  destruct (can_do action m); [done|]. by case_decide.
Qed.

Lemma illegal_among_spec items m :
  Forall (fun kv => is_Some (from_string kv.1)) items ->
  illegal_among items m = (Ok (illegal_list m items), m).
Proof.
  induction 1 as [|[astr aid] rest [action Hparse] _ IH]; simpl; [done|].
  simpl in Hparse. rewrite Hparse.
  erewrite bind_Ok; [|by apply _is_legal_spec].
  unfold bind. rewrite IH. by destruct (can_do action m).
Qed.

Lemma _get_illegal_action_ids_spec m :
  vocab_parses m ->
  _get_illegal_action_ids m = (Ok (restrictions m), m).
Proof.
  intros Hv. unfold _get_illegal_action_ids, restrictions.
  unfold bind at 1, gets.
  erewrite bind_Ok; [|apply illegal_among_spec].
  - by destruct (illegal_list m (map_to_list (actionstr2id m))).
  - apply Forall_forall. intros [astr aid] Hin%elem_of_map_to_list.
    destruct (Hv _ _ Hin) as (action & Hparse & _). simpl. eauto.
Qed.

Lemma compute_action_log_probs_spec m :
  _started m = true -> enc_inv m -> vocab_parses m ->
  exists t, log_probs m = Some t /\ compute_action_log_probs m = (Ok t, m).
Proof.
  intros Hs [[_ Hls] [_ Hlh] [_ Hlb] _ _ _] Hv.
  destruct (top_is_Some (stack_encoder m) Hls) as [s_top Hst].
  destruct (top_is_Some (history_encoder m) Hlh) as [h_top Hht].
  destruct (top_is_Some (buffer_encoder m)) as [b_top Hbt]; [lia|].
  unfold log_probs, compute_action_log_probs. rewrite Hst, Hbt, Hht.
  eexists. split; [reflexivity|].
  unfold bind at 1, gets. unfold bind at 1. rewrite Hs. simpl.
  unfold bind at 1, gets. unfold bind at 1, gets. unfold bind at 1, gets.
  rewrite Hst, Hbt, Hht. unfold bind at 1, gets.
  erewrite bind_Ok; [|by apply _get_illegal_action_ids_spec]. done.
Qed.

(** ** start succeeds on a sound parser and a sound input *)

Lemma lookup_all_Forall2 (d : gmap string Z) (keys : list string) :
  forallb (fun k => bool_decide (is_Some (d !! k))) keys = true ->
  exists vs, Forall2 (fun k v => d !! k = Some v) keys vs.
Proof.
  induction keys as [|k keys IH]; simpl.
  - intros _. exists []. constructor.
  - intros [[v Hk]%bool_decide_eq_true Hrest]%andb_true_iff.
    destruct (IH Hrest) as [vs Hvs]. exists (v :: vs). by constructor.
Qed.

Lemma start_ok words pos_tags m0 :
  parser_ok m0 = true -> input_ok m0 words pos_tags = true ->
  exists m, start words pos_tags m0 = (Ok tt, m).
Proof.
  unfold parser_ok, input_ok.
  intros Hp Hi.
  apply andb_true_iff in Hp as [Hp _].
  apply andb_true_iff in Hp as [Hp Hwh%enc_wf_b_true].
  apply andb_true_iff in Hp as [Hws%enc_wf_b_true Hwb%enc_wf_b_true].
  apply andb_true_iff in Hi as [Hi Htags].
  apply andb_true_iff in Hi as [Hi Hwords].
  apply andb_true_iff in Hi as [Hlen Hne].
  destruct (clear_ok _ Hws) as [se0 Hcs].
  destruct (clear_ok _ Hwb) as [be0 Hcb].
  destruct (clear_ok _ Hwh) as [he0 Hch].
  destruct (clear_wf _ _ Hws Hcs) as [Hws0 _].
  destruct (clear_wf _ _ Hwb Hcb) as [Hwb0 _].
  destruct (clear_wf _ _ Hwh Hch) as [Hwh0 _].
  destruct (push_ok se0 (stack_guard (layers m0)) Hws0) as (st_s & se & Hps & _).
  destruct (push_ok be0 (buffer_guard (layers m0)) Hwb0)
    as (st_b & be1 & Hpb & Hwb1).
  destruct (push_ok he0 (history_guard (layers m0)) Hwh0)
    as (st_h & he & Hph & _).
  destruct (lookup_all_Forall2 _ _ Hwords) as [wids Hwids].
  destruct (lookup_all_Forall2 _ _ Htags) as [pids Hpids].
  apply Nat.eqb_eq in Hlen.
  set (emb := dict_of_zip wids
                (zip_with (word2encoder (layers m0)) wids pids)).
  set (m1 :=
         {| word2id := word2id m0; pos2id := pos2id m0; nt2id := nt2id m0;
            actionstr2id := actionstr2id m0; layers := layers m0;
            _stack := []; _buffer := []; _history := [];
            _num_open_nt := 0; _started := false;
            stack_encoder := se; buffer_encoder := be1;
            history_encoder := he; _word_emb := emb;
            _nt_emb := Some (nt2encoder (layers m0));
            _action_emb := Some (action2encoder (layers m0)) |}).
  destruct (start_fill_ok (rev words) m1) as [m2 Hfill].
  { apply Forall_rev. apply Forall_forall. intros w Hw.
    apply list_elem_of_lookup in Hw as [i Hi].
    destruct (Forall2_lookup_l _ _ _ _ _ Hwids Hi) as (wid & Hwid & Hlook).
    assert (is_Some (emb !! wid)) as [v Hv].
    { apply dict_of_zip_lookup.
      - rewrite length_zip_with.
        apply Forall2_length in Hwids, Hpids. lia.
      - apply list_elem_of_lookup. eauto. }
    exists wid, v. done. }
  { done. }
  eexists. unfold start.
  apply negb_true_iff in Hne.
  unfold bind at 1. rewrite (proj2 (Nat.eqb_eq _ _) Hlen). simpl.
  unfold bind at 1. rewrite Hne. simpl.
  do 5 (unfold bind at 1, modify; flat).
  unfold on_stack_encoder, on_buffer_encoder, on_history_encoder.
  unfold bind at 1, zoom. psimpl. rewrite Hcs. flat.
  unfold bind at 1, zoom. psimpl. rewrite Hcb. flat.
  unfold bind at 1, zoom. psimpl. rewrite Hch. flat.
  unfold bind at 1, gets. psimpl.
  unfold bind at 1, zoom. psimpl. rewrite Hps. flat.
  unfold bind at 1, zoom. psimpl. rewrite Hpb. flat.
  unfold bind at 1, zoom. psimpl. rewrite Hph. flat.
  erewrite bind_Ok;
    [|apply _prepare_embeddings_iff; split; [done|];
      exists wids, pids; split_and!; [done|done|reflexivity]].
  flat. fold emb. fold m1. rewrite (bind_Ok _ _ _ _ _ Hfill).
  reflexivity.
Qed.

(** ** forward *)

(** The transitions and [start] leave the id mappings and the learned
    modules alone. *)
Lemma step_static action m m' :
  step action m m' ->
  actionstr2id m' = actionstr2id m /\ nt2id m' = nt2id m /\
  layers m' = layers m.
Proof. intros Hstep. by inversion Hstep. Qed.

Lemma start_static words pos_tags m0 m :
  start words pos_tags m0 = (Ok tt, m) ->
  actionstr2id m = actionstr2id m0 /\ nt2id m = nt2id m0 /\
  layers m = layers m0.
Proof.
  intros (_ & _ & Hm)%start_inv.
  destruct Hm as (? & ? & ? & ? & ? & ? & ? & ? & ? & ? & ? & ? & Hm).
  destruct Hm as (_ & _ & _ & _ & _ & _ & _ & _ & _ & _ & ->). done.
Qed.

Lemma known_static m m' action :
  actionstr2id m' = actionstr2id m -> nt2id m' = nt2id m ->
  known m action -> known m' action.
Proof. unfold known. by intros -> ->. Qed.

Lemma vocab_parses_static m m' :
  actionstr2id m' = actionstr2id m -> nt2id m' = nt2id m ->
  vocab_parses m -> vocab_parses m'.
Proof.
  intros Ha Hn Hv astr aid Hlook. rewrite Ha in Hlook.
  destruct (Hv _ _ Hlook) as (action & Hparse & Hk).
  exists action. split; [done|]. by eapply known_static.
Qed.

(** The loop of [forward] adds the scores of [gold_scores], in order, to
    the total it starts from, and raises nothing. *)
Lemma forward_loop_spec actions m llh :
  sym_inv m -> enc_inv m -> vocab_parses m -> Forall (known m) actions ->
  exists m',
    forward_loop actions llh m =
      (Ok (fold_left scalar_add (gold_scores actions m) llh), m').
Proof.
  revert m llh. induction actions as [|action rest IH];
    intros m llh Hsym Henc Hv Hknown; simpl.
  - by exists m.
  - apply Forall_cons in Hknown as [Hk Hknown].
    destruct (compute_action_log_probs_spec m (inv_started _ Hsym) Henc Hv)
      as (t & Ht & Hlp).
    pose proof Hk as [[aid Haid] _].
    rewrite (bind_Ok _ _ _ _ _ Hlp). unfold bind at 1, gets.
    rewrite (bind_Ok _ _ _ aid m) by by apply dict_get_Some.
    assert (score m action = tensor_item t aid) as Hscore
      by (unfold score; by rewrite Ht, Haid).
    rewrite Hscore.
    destruct (can_do action m) eqn:Hc.
    + destruct (step_progress action m Hsym Henc Hc Hk) as [m1 Hstep].
      pose proof (proj2 (execute_on_step _ _ _) Hstep) as Hex.
      rewrite Hex. simpl.
      destruct (step_static _ _ _ Hstep) as (Ha & Hn & _).
      destruct (IH m1 (scalar_add llh (tensor_item t aid))) as [m' Hloop].
      * by eapply step_sym_inv.
      * by eapply step_enc_inv.
      * by eapply vocab_parses_static.
      * eapply Forall_impl; [exact Hknown|]. intros a.
        by apply known_static.
      * exists m'. unfold bind at 1, try_except, bind. rewrite Hex. simpl.
        exact Hloop.
    + exists m. unfold bind at 1, try_except, bind.
      rewrite (execute_on_illegal _ _ Hc). by case_decide.
Qed.

(** C5. On a sound parser, a sound input and gold actions the parser
    knows, [forward] returns normally, and the scalar it returns is the
    negative of the sum, taken in order from zero, of the log-probabilities
    of the gold actions, each scored in the state the preceding ones led
    to and then executed, up to and including the first action that is
    illegal where it stands; no action after that one contributes. *)
Theorem forward_accumulates_gold_scores m0 words pos_tags actions :
  parser_ok m0 = true -> input_ok m0 words pos_tags = true ->
  forallb (known_b m0) actions = true ->
  exists m m',
    start words pos_tags m0 = (Ok tt, m) /\
    forward words pos_tags actions m0 =
      (Ok (scalar_neg (total (gold_scores actions m))), m').
Proof.
  intros Hp Hi Hk.
  destruct (start_ok words pos_tags m0 Hp Hi) as [m Hstart].
  destruct (start_static _ _ _ _ Hstart) as (Ha & Hn & _).
  assert (vocab_parses m) as Hv.
  { apply (vocab_parses_static m0); [done|done|].
    apply vocab_ok_parses. unfold parser_ok in Hp.
    by apply andb_true_iff in Hp as [_ ?]. }
  assert (enc_inv m) as Henc.
  { unfold parser_ok in Hp.
    apply andb_true_iff in Hp as [Hp _].
    apply andb_true_iff in Hp as [Hp Hwh%enc_wf_b_true].
    apply andb_true_iff in Hp as [Hws%enc_wf_b_true Hwb%enc_wf_b_true].
    by eapply start_enc_inv. }
  destruct (forward_loop_spec actions m scalar_zero) as [m' Hloop].
  - by eapply start_sym_inv.
  - done.
  - done.
  - apply Forall_forall. intros a Hin.
    rewrite forallb_forall in Hk.
    apply (known_static m0); [done|done|].
    apply known_b_true, Hk. by apply list_elem_of_In.
  - exists m, m'. split; [done|]. unfold forward.
    rewrite (bind_Ok _ _ _ _ _ Hstart), (bind_Ok _ _ _ _ _ Hloop). done.
Qed.

(** ** The measure of decode *)

Lemma step_potential action m m' :
  step action m m' -> sym_inv m -> (potential m' < potential m)%Z.
Proof.
  intros Hstep [Hs Hn Hcap Htree Htop Hbot Hbuf].
  pose proof (count_open_nonneg (_stack m)) as Hpos. rewrite <- Hn in Hpos.
  unfold potential, MAX_OPEN_NT in *.
  inversion Hstep as
    [m_ nonterm nid t st se aid ta st' he Hc
    |m_ word rest wid v st be st' se aid ta st'' he Hc Hb
    |m_ pre o cs label kids aid ta st he Hc Hst Hne Hcs Ho Hsub Hposn];
    subst; simpl; rewrite last_is_nt_snoc; simpl.
  - destruct (last_is_nt (_history m)); lia.
  - rewrite Hb, length_app. simpl.
    destruct (last_is_nt (_history m)); lia.
  - apply andb_true_iff in Hc as [Hc _].
    apply andb_true_iff in Hc as [_ Hlast]. apply negb_true_iff in Hlast.
    rewrite Hlast. lia.
Qed.

Lemma count_open_head (stack : list StackElement) b :
  head stack = Some b -> is_open_nt b = true -> (1 <= count_open stack)%Z.
Proof.
  destruct stack as [|x stack]; [done|]. intros [= ->] Hb.
  change (b :: stack) with ([b] ++ stack).
  rewrite count_open_app, count_open_singleton, Hb.
  pose proof (count_open_nonneg stack). lia.
Qed.

Lemma potential_unfinished m :
  sym_inv m -> finished m = false -> (MAX_OPEN_NT + 1 < potential m)%Z.
Proof.
  intros [Hs Hn Hcap Htree Htop Hbot Hbuf] Hfin.
  pose proof (count_open_nonneg (_stack m)) as Hpos. rewrite <- Hn in Hpos.
  unfold potential, MAX_OPEN_NT in *.
  destruct (_buffer m) as [|w buffer] eqn:Hb; simpl length.
  - destruct (last_is_nt (_history m)) eqn:Hl; [by exfalso; apply Hbuf; auto|].
    assert (_stack m <> []) as Hne.
    { intros Hnil. unfold top_matches_history in Htop.
      destruct (last (_history m)) as [a|] eqn:Hla.
      - destruct Htop as (x & Hx & _). by rewrite Hnil in Hx.
      - apply last_None in Hla. by apply Hbuf; auto. }
    destruct (_stack m) as [|b stack] eqn:Hst; [done|].
    specialize (Hbot Hfin b). rewrite Hst in Hbot.
    specialize (Hbot eq_refl).
    pose proof (count_open_head (b :: stack) b eq_refl Hbot). lia.
  - destruct (last_is_nt (_history m)); lia.
Qed.

Lemma potential_ge m : sym_inv m -> (MAX_OPEN_NT + 1 <= potential m)%Z.
Proof.
  intros [Hs Hn Hcap Htree Htop Hbot Hbuf].
  pose proof (count_open_nonneg (_stack m)) as Hpos. rewrite <- Hn in Hpos.
  unfold potential, MAX_OPEN_NT in *.
  destruct (last_is_nt (_history m)) eqn:Hl; [|lia].
  destruct (_buffer m) as [|w buffer] eqn:Hb; [by exfalso; apply Hbuf; auto|].
  simpl length. lia.
Qed.

Lemma potential_start words pos_tags m0 m :
  start words pos_tags m0 = (Ok tt, m) ->
  potential m =
    (2 * (MAX_OPEN_NT + 1) * Z.of_nat (length words) + MAX_OPEN_NT + 1)%Z.
Proof.
  intros (_ & _ & Hm)%start_inv.
  destruct Hm as (? & ? & ? & ? & ? & ? & ? & ? & ? & ? & ? & ? & Hm).
  destruct Hm as (_ & _ & _ & _ & _ & _ & _ & _ & _ & _ & ->).
  unfold potential. simpl. rewrite length_rev. lia.
Qed.

(** ** The tally *)

Lemma shifts_snoc history a :
  shifts (history ++ [a]) =
    shifts history + (if decide (a = ShiftAction) then 1 else 0).
Proof.
  unfold shifts. rewrite filter_app, length_app, filter_cons, filter_nil.
  by destruct (decide (a = ShiftAction)).
Qed.

Lemma reduces_snoc history a :
  reduces (history ++ [a]) =
    reduces history + (if decide (a = ReduceAction) then 1 else 0).
Proof.
  unfold reduces. rewrite filter_app, length_app, filter_cons, filter_nil.
  by destruct (decide (a = ReduceAction)).
Qed.

Lemma opens_snoc history a :
  opens (history ++ [a]) = opens history + (if is_NTAction a then 1 else 0).
Proof.
  unfold opens. rewrite filter_app, length_app, filter_cons, filter_nil.
  destruct (is_NTAction a); by case_decide.
Qed.

Lemma history_length (history : list Action) :
  length history = shifts history + reduces history + opens history.
Proof.
  induction history as [|a history IH] using rev_ind; [done|].
  rewrite length_app, shifts_snoc, reduces_snoc, opens_snoc. simpl.
  destruct a; simpl; repeat case_decide; try done; lia.
Qed.

Lemma step_tally action n m m' : step action m m' -> tally n m -> tally n m'.
Proof.
  intros Hstep [Hsh Hop]. unfold tally.
  inversion Hstep as
    [m_ nonterm nid t st se aid ta st' he Hc
    |m_ word rest wid v st be st' se aid ta st'' he Hc Hb
    |m_ pre o cs label kids aid ta st he Hc Hst Hne Hcs Ho Hsub Hposn];
    subst; simpl; rewrite shifts_snoc, opens_snoc, reduces_snoc; simpl.
  - lia.
  - rewrite Hb, length_app. simpl. lia.
  - lia.
Qed.

Lemma start_tally words pos_tags m0 m :
  start words pos_tags m0 = (Ok tt, m) -> tally (length words) m.
Proof.
  intros (_ & _ & Hm)%start_inv.
  destruct Hm as (? & ? & ? & ? & ? & ? & ? & ? & ? & ? & ? & ? & Hm).
  destruct Hm as (_ & _ & _ & _ & _ & _ & _ & _ & _ & _ & ->).
  unfold tally. simpl. by rewrite length_rev.
Qed.

Lemma finished_tally n m :
  sym_inv m -> tally n m -> finished m = true ->
  shifts (_history m) = n /\ opens (_history m) = reduces (_history m).
Proof.
  intros [Hs Hn Hcap Htree Htop Hbot Hbuf] [Hsh Hop] Hfin.
  unfold finished in Hfin.
  apply andb_true_iff in Hfin as [Hfin Hb].
  apply andb_true_iff in Hfin as [Hlen Hclosed].
  apply length_zero_iff_nil in Hb. rewrite Hb in Hsh. simpl in Hsh.
  destruct (_stack m) as [|b [|]] eqn:Hst; try done.
  simpl in Hclosed. apply negb_true_iff in Hclosed.
  rewrite count_open_singleton, Hclosed in Hn. lia.
Qed.

(** ** The action vocabulary *)

Lemma invert_acc_Some (l : list (string * Z)) (acc : gmap Z string) a s :
  fold_left (fun acc kv => <[kv.2 := kv.1]> acc) l acc !! a = Some s ->
  (s, a) ∈ l \/ acc !! a = Some s.
Proof.
  revert acc. induction l as [|[k v] l IH]; intros acc; simpl; [auto|].
  intros [Hin|Hacc]%IH.
  - left. by right.
  - destruct (decide (v = a)) as [->|Hne].
    + rewrite lookup_insert_eq in Hacc. injection Hacc as ->. left. by left.
    + rewrite lookup_insert_ne in Hacc by done. by right.
Qed.

Lemma invert_acc_is_Some (l : list (string * Z)) (acc : gmap Z string) a :
  a ∈ l.*2 \/ is_Some (acc !! a) ->
  is_Some (fold_left (fun acc kv => <[kv.2 := kv.1]> acc) l acc !! a).
Proof.
  revert acc. induction l as [|[k v] l IH]; intros acc; simpl.
  - intros [Hin|Hs]; [by apply elem_of_nil in Hin|done].
  - intros Ha. apply IH. destruct (decide (v = a)) as [->|Hne].
    + right. rewrite lookup_insert_eq. eauto.
    + destruct Ha as [Hin|Hs].
      * apply elem_of_cons in Hin as [?|Hin]; [done|]. by left.
      * right. by rewrite lookup_insert_ne.
Qed.

(** The inverse mapping sends an id of the vocabulary to a string that has
    this id. *)
Lemma invert_lookup (d : gmap string Z) a :
  a ∈ vocab_ids d -> exists s, invert d !! a = Some s /\ d !! s = Some a.
Proof.
  intros Hin. unfold invert.
  destruct (invert_acc_is_Some (map_to_list d) ∅ a) as [s Hs]; [by left|].
  exists s. split; [done|].
  apply invert_acc_Some in Hs as [Hin'|Hempty].
  - by apply elem_of_map_to_list.
  - by rewrite lookup_empty in Hempty.
Qed.

Lemma illegal_list_sub m (items : list (string * Z)) a :
  a ∈ illegal_list m items -> a ∈ items.*2.
Proof.
  induction items as [|[s0 a0] rest IH]; simpl; [done|].
  destruct (from_string s0) as [act|].
  - destruct (can_do act m).
    + intros Hin. right. by apply IH.
    + intros [->|Hin]%elem_of_cons; [by left|]. right. by apply IH.
  - intros Hin. right. by apply IH.
Qed.

Lemma illegal_list_in m (items : list (string * Z)) s a act :
  (s, a) ∈ items -> from_string s = Some act -> can_do act m = false ->
  a ∈ illegal_list m items.
Proof.
  intros Hin Hparse Hc.
  induction items as [|[s0 a0] rest IH]; simpl; [by apply elem_of_nil in Hin|].
  apply elem_of_cons in Hin as [[= <- <-]|Hin].
  - rewrite Hparse, Hc. by left.
  - destruct (from_string s0) as [act0|]; [|by apply IH].
    destruct (can_do act0 m); [by apply IH|]. right. by apply IH.
Qed.

Lemma illegal_list_not_in m (items : list (string * Z)) s a act :
  NoDup items.*2 ->
  (s, a) ∈ items -> from_string s = Some act -> can_do act m = true ->
  a ∉ illegal_list m items.
Proof.
  intros Hnd Hin Hparse Hc.
  induction items as [|[s0 a0] rest IH]; simpl; [by apply elem_of_nil in Hin|].
  simpl in Hnd. apply NoDup_cons in Hnd as [Hfresh Hnd].
  apply elem_of_cons in Hin as [[= <- <-]|Hin].
  - rewrite Hparse, Hc. intros Hbad%illegal_list_sub. done.
  - assert (a <> a0) as Hne.
    { intros ->. apply Hfresh. apply list_elem_of_fmap. by exists (s, a0). }
    specialize (IH Hnd Hin).
    destruct (from_string s0) as [act0|]; [|done].
    destruct (can_do act0 m); [done|].
    intros [?|?]%elem_of_cons; done.
Qed.

Lemma restrictions_default m :
  default [] (restrictions m) = illegal_list m (map_to_list (actionstr2id m)).
Proof.
  unfold restrictions.
  by destruct (illegal_list m (map_to_list (actionstr2id m))).
Qed.

(** A parser that has not finished has a legal action in a complete
    vocabulary. *)
Lemma legal_in_vocab m :
  sym_inv m -> finished m = false -> vocab_complete m = true ->
  exists s a act,
    actionstr2id m !! s = Some a /\ from_string s = Some act /\
    can_do act m = true.
Proof.
  intros Hinv Hfin Hvc. unfold vocab_complete in Hvc.
  apply andb_true_iff in Hvc as [Hvc Hnt].
  apply andb_true_iff in Hvc as [[a_s Hshift]%bool_decide_eq_true
                                   [a_r Hreduce]%bool_decide_eq_true].
  apply existsb_exists in Hnt as ([s_n a_n] & Hin & Hparse).
  apply list_elem_of_In, elem_of_map_to_list in Hin. simpl in Hparse.
  destruct (from_string s_n) as [[| |label]|] eqn:Hfs; try done.
  destruct (sym_inv_not_stuck m Hinv Hfin) as [Hc|[Hc|Hc]].
  - exists s_n, a_n, (NTAction label). done.
  - exists "SHIFT", a_s, ShiftAction. done.
  - exists "REDUCE", a_r, ReduceAction. done.
Qed.

(** ** decode *)

Lemma decode_ready_static m m' :
  actionstr2id m' = actionstr2id m -> nt2id m' = nt2id m ->
  layers m' = layers m -> decode_ready m -> decode_ready m'.
Proof.
  intros Ha Hn Hl (Hv & Hc & Hd & Hm).
  unfold decode_ready, vocab_complete, ids_distinct in *.
  rewrite Ha, Hl. split_and!; try done. by eapply vocab_parses_static.
Qed.

(** The action [decode] picks in an unfinished state is in the vocabulary
    and legal. *)
Lemma decode_choice m t :
  sym_inv m -> decode_ready m -> finished m = false ->
  log_probs m = Some t ->
  exists astr action,
    invert (actionstr2id m) !! tensor_argmax t = Some astr /\
    from_string astr = Some action /\ known m action /\
    can_do action m = true.
Proof.
  intros Hinv (Hv & Hc & Hd & Hmask) Hfin Ht.
  unfold log_probs in Ht.
  destruct (top (stack_encoder m)) as [s_top|]; [|done].
  destruct (top (buffer_encoder m)) as [b_top|]; [|done].
  destruct (top (history_encoder m)) as [h_top|]; [|done].
  injection Ht as <-.
  apply bool_decide_eq_true in Hd.
  destruct (legal_in_vocab m Hinv Hfin Hc) as (s & a & act & Hs & Hparse & Hlegal).
  destruct (Hmask (encoders2summary (layers m) s_top b_top h_top)
              (restrictions m)) as [Hbest Hfree].
  { exists a. rewrite restrictions_default. split.
    - apply list_elem_of_fmap. exists (s, a). split; [done|].
      by apply elem_of_map_to_list.
    - eapply illegal_list_not_in; eauto. by apply elem_of_map_to_list. }
  rewrite restrictions_default in Hfree.
  destruct (invert_lookup _ _ Hbest) as (astr & Hinvert & Hastr).
  destruct (Hv _ _ Hastr) as (action & Hfs & Hknown).
  exists astr, action. split_and!; try done.
  destruct (can_do action m) eqn:Hcd; [done|]. exfalso. apply Hfree.
  eapply illegal_list_in; eauto. by apply elem_of_map_to_list.
Qed.

(** With fuel for the actions the potential allows, the loop of [decode]
    ends in a finished state, having made at most that many actions. *)
Lemma decode_loop_spec fuel m best n :
  sym_inv m -> enc_inv m -> tally n m -> decode_ready m ->
  (potential m - (MAX_OPEN_NT + 1) <= Z.of_nat fuel)%Z ->
  exists ids m',
    decode_loop fuel (invert (actionstr2id m)) best m =
      (Ok (Some (best ++ ids)), m') /\
    finished m' = true /\ sym_inv m' /\ tally n m' /\
    (Z.of_nat (length ids) <= potential m - (MAX_OPEN_NT + 1))%Z /\
    length (_history m') = length (_history m) + length ids.
Proof.
  revert m best. induction fuel as [|fuel IH];
    intros m best Hinv Henc Htally Hready Hfuel.
  - destruct (finished m) eqn:Hfin.
    + exists [], m. simpl. rewrite Hfin, app_nil_r.
      pose proof (potential_ge m Hinv).
      split_and!; try done; simpl; lia.
    + pose proof (potential_unfinished m Hinv Hfin). simpl in Hfuel. lia.
  - destruct (finished m) eqn:Hfin.
    + exists [], m. simpl. rewrite Hfin, app_nil_r.
      pose proof (potential_ge m Hinv).
      split_and!; try done; simpl; lia.
    + destruct Hready as (Hv & Hc & Hd & Hmask).
      destruct (compute_action_log_probs_spec m (inv_started _ Hinv) Henc Hv)
        as (t & Ht & Hlp).
      destruct (decode_choice m t Hinv (conj Hv (conj Hc (conj Hd Hmask)))
                  Hfin Ht)
        as (astr & action & Hinvert & Hfs & Hknown & Hlegal).
      destruct (step_progress action m Hinv Henc Hlegal Hknown) as [m1 Hstep].
      pose proof (proj2 (execute_on_step _ _ _) Hstep) as Hex.
      destruct (step_static _ _ _ Hstep) as (Ha & Hn & Hl).
      pose proof (step_potential _ _ _ Hstep Hinv) as Hdec.
      destruct (IH m1 (best ++ [tensor_argmax t]))
        as (ids & m' & Hloop & Hfin' & Hinv' & Htally' & Hlen & Hhist).
      * by eapply step_sym_inv.
      * by eapply step_enc_inv.
      * by eapply step_tally.
      * by apply (decode_ready_static m).
      * lia.
      * exists (tensor_argmax t :: ids), m'.
        simpl decode_loop. rewrite Hfin.
        rewrite (bind_Ok _ _ _ _ _ Hlp).
        rewrite (bind_Ok _ _ _ astr m) by by apply dict_get_Some.
        unfold action_of_string. rewrite Hfs. unfold bind at 1, ret.
        rewrite (bind_Ok _ _ _ _ _ Hex).
        rewrite Ha in Hloop. rewrite Hloop.
        split_and!; try done.
        -- by rewrite <- app_assoc.
        -- simpl length. lia.
        -- rewrite Hhist. simpl length.
           assert (length (_history m1) = S (length (_history m))) as ->; [|lia].
           inversion Hstep; subst; simpl; rewrite length_app; simpl; lia.
Qed.

(** C6, as amended. On a sound parser and a sound input, with a
    vocabulary that is complete and has distinct ids and numerics that
    respect the mask, [decode] with room for [2 * (MAX_OPEN_NT + 1)]
    actions per word returns normally, in a finished state, the ids of at
    most that many actions; exactly one Shift per word is among them, and as
    many Opens as Reduces.  The cap bounds the nonterminals open at one
    time ([inv_cap]), not the number of Opens. *)
Theorem decode_terminates m0 words pos_tags fuel :
  parser_ok m0 = true -> input_ok m0 words pos_tags = true ->
  vocab_complete m0 = true -> ids_distinct m0 = true ->
  mask_respected (layers m0) (actionstr2id m0) ->
  2 * (Z.to_nat MAX_OPEN_NT + 1) * length words <= fuel ->
  exists ids m',
    decode fuel words pos_tags m0 = (Ok (Some ids), m') /\
    finished m' = true /\
    length ids <= 2 * (Z.to_nat MAX_OPEN_NT + 1) * length words /\
    length ids = length (_history m') /\
    shifts (_history m') = length words /\
    opens (_history m') = reduces (_history m') /\
    (_num_open_nt m' <= MAX_OPEN_NT)%Z.
Proof.
  intros Hp Hi Hc Hd Hmask Hfuel.
  destruct (start_ok words pos_tags m0 Hp Hi) as [m Hstart].
  destruct (start_static _ _ _ _ Hstart) as (Ha & Hn & Hl).
  pose proof (start_sym_inv _ _ _ _ Hstart) as Hinv.
  pose proof (start_tally _ _ _ _ Hstart) as Htally.
  pose proof (potential_start _ _ _ _ Hstart) as Hpot.
  assert (enc_inv m) as Henc.
  { unfold parser_ok in Hp.
    apply andb_true_iff in Hp as [Hp _].
    apply andb_true_iff in Hp as [Hp Hwh%enc_wf_b_true].
    apply andb_true_iff in Hp as [Hws%enc_wf_b_true Hwb%enc_wf_b_true].
    by eapply start_enc_inv. }
  assert (decode_ready m) as Hready.
  { apply (decode_ready_static m0); try done.
    split_and!; try done. apply vocab_ok_parses.
    unfold parser_ok in Hp. by apply andb_true_iff in Hp as [_ ?]. }
  assert (_history m = []) as Hhist0.
  { apply start_inv in Hstart as (_ & _ & Hm).
    destruct Hm as (? & ? & ? & ? & ? & ? & ? & ? & ? & ? & ? & ? & Hm).
    destruct Hm as (_ & _ & _ & _ & _ & _ & _ & _ & _ & _ & ->). done. }
  unfold MAX_OPEN_NT in *.
  destruct (decode_loop_spec fuel m [] (length words) Hinv Henc Htally Hready)
    as (ids & m' & Hloop & Hfin & Hinv' & Htally' & Hlen & Hhist).
  { unfold MAX_OPEN_NT. lia. }
  destruct (finished_tally _ _ Hinv' Htally' Hfin) as [Hsh Hop].
  exists ids, m'. split_and!; try done.
  - unfold decode. rewrite (bind_Ok _ _ _ _ _ Hstart).
    unfold bind at 1, gets. exact Hloop.
  - unfold MAX_OPEN_NT in *. lia.
  - rewrite Hhist, Hhist0. done.
  - apply (inv_cap _ Hinv').
Qed.

(** ** Reduce and the stack encoder *)

Lemma stack_pop_preserves {T : Type} (f : DiscRNNG -> T) :
  (forall v m, f (set_stack v m) = f m) -> preserves f stack_pop.
Proof.
  intros Hf m. unfold stack_pop.
  destruct (py_pop (_stack m)) as [[x rest]|]; simpl; [apply Hf|done].
Qed.

Lemma _reduce_loop_preserves fuel children :
  preserves stack_encoder (_reduce_loop fuel children).
Proof.
  revert children. induction fuel as [|fuel IH]; intros children; simpl.
  - frame.
  - apply preserves_bind; [frame|]. intros stack.
    destruct (_ && _); [|frame].
    apply preserves_bind; [by apply stack_pop_preserves|]. intros x. apply IH.
Qed.

Lemma _append_history_preserves action :
  preserves stack_encoder (_append_history action).
Proof. unfold _append_history, on_history_encoder. frame. Qed.

(** Whatever its outcome, [reduce] returns the stack encoder it
    received: nothing is popped from it and nothing is pushed to it. *)
Lemma reduce_preserves_stack_encoder : preserves stack_encoder reduce.
Proof.
  unfold reduce. apply preserves_bind.
  { intros m. by rewrite verify_reduce_check. }
  intros _. apply preserves_bind; [|intros _; apply _append_history_preserves].
  unfold _reduce. apply preserves_bind; [frame|]. intros stack0.
  apply preserves_bind; [apply _reduce_loop_preserves|]. intros children.
  apply preserves_bind; [frame|]. intros _.
  apply preserves_bind; [frame|]. intros stack.
  apply preserves_bind; [frame|]. intros _.
  apply preserves_bind; [by apply stack_pop_preserves|]. intros open_nt.
  destruct (subtree open_nt); [frame|].
  unfold stack_append. frame.
Qed.

Lemma run_reachable actions m m' :
  reachable m -> run actions m = (Ok tt, m') -> reachable m'.
Proof.
  revert m. induction actions as [|action rest IH]; intros m Hm; simpl.
  - by intros [= <-].
  - intros (u & m1 & Hex & Hrun)%bind_inv_Ok. destruct u.
    eapply IH; [|exact Hrun]. by eapply reachable_step.
Qed.
End ParserFacts.

(** * The properties on the concrete model *)

Lemma demo_started_reachable : reachable Demo.started.
Proof.
  apply (reachable_start Demo.parser ["the"] ["DT"]). by vm_compute.
Defined.

Lemma demo_before_reduce_reachable : reachable Demo.before_reduce.
Proof.
  apply (run_reachable [NTAction "S"; ShiftAction] Demo.started).
  - exact demo_started_reachable.
  - by vm_compute.
Defined.

(** C1. After [start(["the"], ["DT"])], [push_nt("S")] and [shift()], the
    parser is started and unfinished, Reduce is legal and collects one
    child.  [reduce] then returns normally and leaves one element on the
    stack where there were two, but the stack encoder holds three entries
    before and three after: the pops and the push of the stack are not
    mirrored in it. *)
Theorem reduce_forgets_stack_encoder :
  let before := Demo.before_reduce in
  let after := (reduce before).2 in
  (_started before = true /\ finished before = false /\
   verify_reduce before = (Ok tt, before)) /\
  (reduce before).1 = Ok tt /\
  (length (_stack before) = 2 /\ length (_stack after) = 1) /\
  (len (stack_encoder before) = 3 /\ len (stack_encoder after) = 3).
Proof. vm_compute. repeat split. Qed.

Lemma never_stuck_before_finished_witness :
  reachable Demo.before_reduce /\
  (finished Demo.before_reduce = false ->
   verify_push_nt Demo.before_reduce = (Ok tt, Demo.before_reduce) \/
   verify_shift Demo.before_reduce = (Ok tt, Demo.before_reduce) \/
   verify_reduce Demo.before_reduce = (Ok tt, Demo.before_reduce)).
Proof.
  split; [exact demo_before_reduce_reachable|].
  exact (proj1 (never_stuck_before_finished Demo.before_reduce
                  demo_before_reduce_reachable)).
Defined.

Lemma verify_reduce_legal_iff_witness :
  _started Demo.before_reduce = true /\
  finished Demo.before_reduce = false /\
  (~ (exists l, last (_history Demo.before_reduce) = Some (NTAction l)) /\
   (2 <= _num_open_nt Demo.before_reduce \/ _buffer Demo.before_reduce = [])%Z
   -> verify_reduce Demo.before_reduce = (Ok tt, Demo.before_reduce)).
Proof.
  split; [reflexivity|]. split; [reflexivity|].
  exact (proj2 (proj1 (verify_reduce_legal_iff Demo.before_reduce
                         eq_refl eq_refl))).
Defined.

Lemma num_open_nt_counts_open_elements_witness :
  reachable Demo.before_reduce /\
  _num_open_nt Demo.before_reduce = count_open (_stack Demo.before_reduce) /\
  (0 <= _num_open_nt Demo.before_reduce)%Z.
Proof.
  split; [exact demo_before_reduce_reachable|].
  exact (num_open_nt_counts_open_elements Demo.before_reduce
           demo_before_reduce_reachable).
Defined.

Lemma forward_accumulates_gold_scores_witness :
  parser_ok Demo.parser = true /\
  input_ok Demo.parser ["the"; "dog"] ["DT"; "NN"] = true /\
  forallb (known_b Demo.parser) Demo.gold = true /\
  exists m m',
    start ["the"; "dog"] ["DT"; "NN"] Demo.parser = (Ok tt, m) /\
    forward ["the"; "dog"] ["DT"; "NN"] Demo.gold Demo.parser =
      (Ok (scalar_neg (total (gold_scores Demo.gold m))), m').
Proof.
  split; [by vm_compute|]. split; [by vm_compute|]. split; [by vm_compute|].
  apply (forward_accumulates_gold_scores Demo.parser); by vm_compute.
Defined.

(** On this input the third gold action is illegal: three scores are
    added, the last of them minus infinity, and the fourth action is not
    scored. *)
Example forward_stops_at_illegal_action :
  gold_scores Demo.gold
    (start ["the"; "dog"] ["DT"; "NN"] Demo.parser).2
  = [Some 3%Z; Some 1%Z; None] /\
  (forward ["the"; "dog"] ["DT"; "NN"] Demo.gold Demo.parser).1 = Ok None.
Proof. by vm_compute. Qed.

Lemma shift_without_open_nt_fails_witness :
  _started Demo.started = true /\ finished Demo.started = false /\
  _num_open_nt Demo.started = 0%Z /\
  shift Demo.started = (Raise IllegalActionError, Demo.started).
Proof.
  split; [reflexivity|]. split; [reflexivity|]. split; [reflexivity|].
  exact (shift_without_open_nt_fails Demo.started eq_refl eq_refl eq_refl).
Defined.

Lemma pop_undoes_push_witness :
  enc_reachable (stack_encoder Demo.parser) /\
  ((pop (stack_encoder Demo.parser)).1 = Raise EmptyStackError <->
   len (stack_encoder Demo.parser) = 0).
Proof.
  assert (enc_reachable (stack_encoder Demo.parser)) as Hr
    by exact (enc_init Demo.cell 0%Z).
  split; [exact Hr|].
  exact (proj1 (proj2 (proj2 (pop_undoes_push _ Hr)))).
Defined.

Lemma start_rejects_bad_input_witness :
  (length (@nil string) <> length (@nil string) \/ length (@nil string) = 0) /\
  start [] [] Demo.parser = (Raise ValueError, Demo.parser).
Proof.
  assert (length (@nil string) <> length (@nil string)
          \/ length (@nil string) = 0) as Hbad by (right; reflexivity).
  split; [exact Hbad|].
  exact (start_rejects_bad_input Demo.parser [] [] Hbad).
Defined.

(** The scores of the concrete model respect the mask. *)
Lemma demo_mask_respected :
  @mask_respected Demo.torch (layers Demo.parser) (actionstr2id Demo.parser).
Proof.
  intros summary illegal (a & Hin & Hout) best.
  assert (vocab_ids (actionstr2id Demo.parser) = [0; 2; 3; 1]%Z) as Hids
    by (vm_compute; reflexivity).
  rewrite Hids in Hin |- *. subst best. clear Hids.
  destruct illegal as [r|]; simpl in Hout.
  2:{ vm_compute. split; [|by intros ?%elem_of_nil].
      apply elem_of_cons. right. by left. }
  change (tensor_argmax (log_softmax ?t (Some r)))
    with (Demo.argmax (Demo.mask t (Some r))).
  cbn [Demo.mask imap layers Demo.parser summary2actionlogprobs Demo.net].
  unfold compose.
  change (Z.of_nat 0) with 0%Z. change (Z.of_nat 1) with 1%Z.
  change (Z.of_nat 2) with 2%Z. change (Z.of_nat 3) with 3%Z.
  simpl default.
  destruct (bool_decide (0%Z ∈ r)) eqn:H0;
    destruct (bool_decide (1%Z ∈ r)) eqn:H1;
    destruct (bool_decide (2%Z ∈ r)) eqn:H2;
    destruct (bool_decide (3%Z ∈ r)) eqn:H3.
  all: repeat match goal with
           | Hb : bool_decide _ = true |- _ => apply bool_decide_eq_true in Hb
           | Hb : bool_decide _ = false |- _ =>
               apply bool_decide_eq_false in Hb
           end.
  all: match goal with
       | |- context [Demo.argmax ?t] =>
           let x := eval vm_compute in (Demo.argmax t) in
           change (Demo.argmax t) with x
       end.
  all: try (split; [rewrite !elem_of_cons; tauto|assumption]).
  exfalso. rewrite !elem_of_cons in Hin.
  destruct Hin as [->|[->|[->|[->|Hin]]]]; try done.
  by apply elem_of_nil in Hin.
Qed.


Lemma decode_terminates_witness :
  parser_ok Demo.parser = true /\
  input_ok Demo.parser ["the"] ["DT"] = true /\
  vocab_complete Demo.parser = true /\ ids_distinct Demo.parser = true /\
  2 * (Z.to_nat MAX_OPEN_NT + 1) * length ["the"] <= 202 /\
  exists ids m',
    decode 202 ["the"] ["DT"] Demo.parser = (Ok (Some ids), m') /\
    finished m' = true /\
    length ids <= 2 * (Z.to_nat MAX_OPEN_NT + 1) * length ["the"] /\
    length ids = length (_history m') /\
    shifts (_history m') = length ["the"] /\
    opens (_history m') = reduces (_history m') /\
    (_num_open_nt m' <= MAX_OPEN_NT)%Z.
Proof.
  assert (2 * (Z.to_nat MAX_OPEN_NT + 1) * length ["the"] <= 202) as Hfuel
    by (vm_compute; lia).
  split; [by vm_compute|]. split; [by vm_compute|].
  split; [by vm_compute|]. split; [by vm_compute|].
  split; [exact Hfuel|].
  apply (decode_terminates Demo.parser ["the"] ["DT"] 202);
    [by vm_compute|by vm_compute|by vm_compute|by vm_compute
    |exact demo_mask_respected|exact Hfuel].
Defined.

(** C6, counterexample. On the two-word sentence the concrete model
    finishes after 101 Opens, one more than the cap allows open at one
    time. *)
Lemma decode_opens_exceed_cap :
  let r := decode 404 ["the"; "dog"] ["DT"; "NN"] Demo.parser in
  (exists ids, r.1 = Ok (Some ids)) /\ finished r.2 = true /\
  opens (_history r.2) = 101 /\
  ~ (Z.of_nat (opens (_history r.2)) <= MAX_OPEN_NT)%Z.
Proof.
  vm_compute. split; [eauto|]. split; [done|]. split; [done|].
  intros Hle. by apply Hle.
Qed.
